(** * Lowering of [sequence] calls to an expression DAG, and the right
      sample block of a join storage.

    Shallow embedding of
    - [cpp-ch/local-engine/Parser/scalar_function_parser/sequence.cpp]
      ([FunctionParserSequence::parse]) and
    - [cpp-ch/local-engine/Storages/StorageJoinFromReadBuffer.h]
      ([StorageJoinFromReadBuffer::getRightSampleBlock]).

    The handler is embedded statement by statement in a state-and-exception
    monad over the expression graph.  The graph builder, the type
    descriptors and the execution primitives are collaborators of the
    handler whose code is not part of the embedded files; they are modelled
    from the specification and every such definition says so. *)

From Stdlib Require Import ZArith List String Bool Lia Arith DecimalString.
Import ListNotations.
Local Open Scope string_scope.
Local Open Scope list_scope.
Local Open Scope Z_scope.

Set Implicit Arguments.

(* ================================================================== *)
(** * Type descriptors *)

(** Modelled from the spec: the semantic type descriptor of section 3
    ("a nullable flag wrapping an inner scalar/array type").  Only the
    integer scalars, arrays, the nullable wrapper and the type of the bare
    NULL literal are needed by the handler. *)
Inductive DataType : Type :=
| UInt8
| Int8
| Int16
| Int32
| Int64
| Nothing
| Array (nested : DataType)
| Nullable (nested : DataType).

Definition DataType_eq_dec : forall a b : DataType, {a = b} + {a <> b}.
Proof. decide equality. Defined.

Definition DataType_eqb (a b : DataType) : bool :=
  if DataType_eq_dec a b then true else false.

(** [IDataType::isNullable]. *)
Definition isNullable (t : DataType) : bool :=
  match t with Nullable _ => true | _ => false end.

(** [makeNullable]: wraps unless already nullable. *)
Definition makeNullable (t : DataType) : DataType :=
  if isNullable t then t else Nullable t.

(** [removeNullable]: strips one nullable wrapper. *)
Definition removeNullable (t : DataType) : DataType :=
  match t with Nullable n => n | _ => t end.

(** [IDataType::getName]. *)
Fixpoint getName (t : DataType) : string :=
  match t with
  | UInt8 => "UInt8"
  | Int8 => "Int8"
  | Int16 => "Int16"
  | Int32 => "Int32"
  | Int64 => "Int64"
  | Nothing => "Nothing"
  | Array n => ("Array(" ++ getName n ++ ")")%string
  | Nullable n => ("Nullable(" ++ getName n ++ ")")%string
  end.

Definition isInteger (t : DataType) : bool :=
  match t with
  | UInt8 | Int8 | Int16 | Int32 | Int64 => true
  | _ => false
  end.

(** Storage size in bits of an integer type. *)
Definition bits (t : DataType) : nat :=
  match t with
  | UInt8 | Int8 => 8
  | Int16 => 16
  | Int32 => 32
  | _ => 64
  end%nat.

(** Bits a signed type needs to hold every value of an integer type: the
    unsigned byte needs one more than its storage. *)
Definition signedBits (t : DataType) : nat :=
  match t with
  | UInt8 => 9
  | _ => bits t
  end%nat.

Definition signedOfBits (n : nat) : DataType :=
  if (n <=? 8)%nat then Int8
  else if (n <=? 16)%nat then Int16
  else if (n <=? 32)%nat then Int32
  else Int64.

(** Modelled from the spec: the type-descriptor module's promotion and
    widening of two non-nullable types to a common one.  [None] is the
    spec's TypeMismatch. *)
Fixpoint baseSupertype (a b : DataType) : option DataType :=
  match a, b with
  | Nothing, y => Some y
  | Array x, Array y => option_map Array (baseSupertype x y)
  | Array x, Nothing => Some (Array x)
  | Array _, _ => None
  | Nullable x, y => if DataType_eqb (Nullable x) y then Some y else None
  | x, Nothing => Some x
  | x, y =>
      if isInteger y
      then if DataType_eqb x y then Some x
           else Some (signedOfBits (Nat.max (signedBits x) (signedBits y)))
      else None
  end.

(** The common type of two conditional branches: nullable as soon as one
    branch is. *)
Definition leastSupertype (a b : DataType) : option DataType :=
  match baseSupertype (removeNullable a) (removeNullable b) with
  | Some t => Some (if isNullable a || isNullable b then makeNullable t else t)
  | None => None
  end.

(* ================================================================== *)
(** * Expression graph *)

(** [DB::Field]: the default-constructed field is NULL. *)
Inductive Field : Type :=
| Null
| FInt (z : Z).

Definition Field_eq_dec : forall a b : Field, {a = b} + {a <> b}.
Proof. decide equality. apply Z.eq_dec. Defined.

(** Modelled from the spec: the node kinds of section 3 (input column,
    typed constant, function application). *)
Inductive ActionType : Type :=
| INPUT
| COLUMN (value : Field)
| FUNCTION (function : string).

Definition ActionType_eq_dec : forall a b : ActionType, {a = b} + {a <> b}.
Proof. decide equality. apply Field_eq_dec. apply string_dec. Defined.

(** [ActionsDAG::Node].  A [const Node *] is the position of the node in
    the builder's arena. *)
Record Node : Type := mkNode {
  type : ActionType;
  children : list nat;
  result_type : DataType;
  result_name : string
}.

Definition Node_eq_dec : forall a b : Node, {a = b} + {a <> b}.
Proof.
  decide equality.
  - apply string_dec.
  - apply DataType_eq_dec.
  - apply (list_eq_dec Nat.eq_dec).
  - apply ActionType_eq_dec.
Defined.

(** The builder owns its nodes in creation order (append-only). *)
Definition ActionsDAG : Type := list Node.

(** Position of the first node equal to [n], counted from [base]. *)
Fixpoint findNode (n : Node) (dag : ActionsDAG) (base : nat) : option nat :=
  match dag with
  | [] => None
  | m :: rest =>
      if Node_eq_dec n m then Some base else findNode n rest (S base)
  end.

(** [actions_dag->getInputs()]: the input nodes in creation order. *)
Fixpoint getInputsFrom (dag : ActionsDAG) (base : nat) : list nat :=
  match dag with
  | [] => []
  | m :: rest =>
      match type m with
      | INPUT => base :: getInputsFrom rest (S base)
      | _ => getInputsFrom rest (S base)
      end
  end.

Definition getInputs (dag : ActionsDAG) : list nat := getInputsFrom dag 0.

(* ================================================================== *)
(** * Exceptions and the builder monad *)

(** The error taxonomy of section 7.  [NUMBER_OF_ARGUMENTS_DOESNT_MATCH]
    carries the function name put in the message. *)
Inductive Exception : Type :=
| NUMBER_OF_ARGUMENTS_DOESNT_MATCH (function : string)
| TYPE_MISMATCH
| LOGICAL_ERROR.

(** A computation that reads and extends the builder passed by reference
    ([ActionsDAGPtr &]) and either returns or throws.  The builder state
    survives a throw, as it does in the source. *)
Definition Build (A : Type) : Type :=
  ActionsDAG -> (Exception + A) * ActionsDAG.

Definition ret {A} (a : A) : Build A := fun dag => (inr a, dag).

Definition throw {A} (e : Exception) : Build A := fun dag => (inl e, dag).

Definition bind {A B} (m : Build A) (k : A -> Build B) : Build B :=
  fun dag =>
    match m dag with
    | (inl e, dag') => (inl e, dag')
    | (inr a, dag') => k a dag'
    end.

Declare Scope build_scope.
Delimit Scope build_scope with build.
Notation "x <- m ;; k" := (bind m (fun x => k))
  (at level 61, m at next level, right associativity) : build_scope.
Local Open Scope build_scope.

(** Dereference of a node pointer. *)
Definition getNode (p : nat) : Build Node :=
  fun dag =>
    match nth_error dag p with
    | Some n => (inr n, dag)
    | None => (inl LOGICAL_ERROR, dag)
    end.

Fixpoint getNodes (ps : list nat) : Build (list Node) :=
  match ps with
  | [] => ret []
  | p :: rest =>
      n <- getNode p ;;
      ns <- getNodes rest ;;
      ret (n :: ns)
  end.

(** Modelled from the spec: the builder's interning ("requesting the same
    logical node twice returns the same node instance"): an equal node
    already in the arena is returned, otherwise the node is appended. *)
Definition addNode (n : Node) : Build nat :=
  fun dag =>
    match findNode n dag 0 with
    | Some p => (inr p, dag)
    | None => (inr (List.length dag), dag ++ [n])
    end.

(* ================================================================== *)
(** * Result types of the engine primitives *)

Definition wrapNullable (b : bool) (t : DataType) : DataType :=
  if b then makeNullable t else t.

Definition anyNullable (ts : list DataType) : bool := existsb isNullable ts.

Definition allInteger (ts : list DataType) : bool :=
  forallb (fun t => isInteger (removeNullable t)) ts.

Definition superTypes (ts : list DataType) : option DataType :=
  match ts with
  | [] => None
  | t :: rest =>
      fold_left
        (fun acc u =>
           match acc with Some a => leastSupertype a u | None => None end)
        rest (Some t)
  end.

(** Splits [c1; v1; ...; cn; vn; else] into conditions and values. *)
Fixpoint multiIfBranches {A} (args : list A) : option (list A * list A) :=
  match args with
  | [e] => Some ([], [e])
  | c :: v :: rest =>
      match multiIfBranches rest with
      | Some (cs, vs) => Some (c :: cs, v :: vs)
      | None => None
      end
  | _ => None
  end.

(** Modelled from the spec: the builder's [addFunction] "resolves the
    function's result type by the same type-promotion rules the execution
    engine uses": the result inherits nullability from the arguments,
    integer arithmetic widens, comparisons yield [UInt8], [range] yields an
    array.  [isNull] never yields a nullable type and [assumeNotNull]
    strips the wrapper.  [None] is the spec's TypeMismatch. *)
Definition resolveType (function : string) (ts : list DataType)
  : option DataType :=
  if String.eqb function "isNull" then
    match ts with [_] => Some UInt8 | _ => None end
  else if String.eqb function "assumeNotNull" then
    match ts with [t] => Some (removeNullable t) | _ => None end
  else if (String.eqb function "lessOrEquals") || (String.eqb function "equals") then
    match ts with
    | [_; _] =>
        if allInteger ts then Some (wrapNullable (anyNullable ts) UInt8)
        else None
    | _ => None
    end
  else if (String.eqb function "plus") || (String.eqb function "minus") then
    match ts with
    | [a; b] =>
        if allInteger ts
        then Some (wrapNullable (anyNullable ts)
                     (signedOfBits
                        (2 * Nat.max (bits (removeNullable a))
                                     (bits (removeNullable b)))))
        else None
    | _ => None
    end
  else if String.eqb function "modulo" then
    match ts with
    | [a; b] =>
        if allInteger ts
        then Some (wrapNullable (anyNullable ts)
                     (signedOfBits (signedBits (removeNullable b))))
        else None
    | _ => None
    end
  else if String.eqb function "range" then
    match ts with
    | [_; _; _] =>
        if allInteger ts
        then option_map (fun t => wrapNullable (anyNullable ts) (Array t))
               (superTypes (map removeNullable ts))
        else None
    | _ => None
    end
  else if String.eqb function "if" then
    match ts with
    | [c; a; b] =>
        if isInteger (removeNullable c)
        then option_map (wrapNullable (isNullable c)) (leastSupertype a b)
        else None
    | _ => None
    end
  else if String.eqb function "multiIf" then
    match multiIfBranches ts with
    | Some (cs, vs) =>
        if allInteger cs
        then option_map (wrapNullable (anyNullable cs)) (superTypes vs)
        else None
    | None => None
    end
  else None.

(** Modelled from the spec: which conversions [convertType] accepts;
    the others fail with TypeMismatch. *)
Fixpoint castableBase (a b : DataType) : bool :=
  match a, b with
  | Nothing, _ => true
  | Array x, Array y => castableBase (removeNullable x) (removeNullable y)
  | Array _, _ => false
  | Nullable _, _ => false
  | _, _ => isInteger b
  end.

Definition castable (a b : DataType) : bool :=
  castableBase (removeNullable a) (removeNullable b).

(* ================================================================== *)
(** * Builder operations used by the handler *)

Definition toString (f : Field) : string :=
  match f with
  | Null => "NULL"
  | FInt z => NilZero.string_of_int (Z.to_int z)
  end.

(** Modelled from the spec: [addConstant(type, value)], named by literal
    value and type. *)
Definition addColumnToActionsDAG (t : DataType) (field : Field) : Build nat :=
  addNode (mkNode (COLUMN field) [] t
             (toString field ++ "_" ++ getName t)%string).

(** Modelled from the spec: [addFunction(name, argumentNodes)], named by
    function name and argument node names. *)
Definition toFunctionNode (function : string) (args : list nat) : Build nat :=
  nodes <- getNodes args ;;
  match resolveType function (map result_type nodes) with
  | None => throw TYPE_MISMATCH
  | Some t =>
      addNode (mkNode (FUNCTION function) args t
                 (function ++ "(" ++ concat "," (map result_name nodes) ++ ")")%string)
  end.

(** Modelled from the spec: [convertType(node, targetType)].  The source
    passes the target by its type name; the cast is a unary function node
    whose result type is the target. *)
Definition convertNodeType (node : nat) (target : DataType)
    (result_name : string) : Build nat :=
  n <- getNode node ;;
  if castable (result_type n) target
  then addNode (mkNode (FUNCTION "CAST") [node] target result_name)
  else throw TYPE_MISMATCH.

(* ================================================================== *)
(** * The serialized call *)

(** Modelled from the spec: a serialized argument expression is either
    a reference to an input column, already present in the builder, or a
    typed literal, translated into a constant node. *)
Inductive Expression : Type :=
| Selection (field : nat)
| Literal (t : DataType) (value : Field).

(** [substrait::Expression_ScalarFunction]: arguments and the result type
    the caller expects. *)
Record Expression_ScalarFunction : Type := {
  arguments : list Expression;
  output_type : DataType
}.

Definition parseExpression (e : Expression) : Build nat :=
  match e with
  | Selection field =>
      fun dag =>
        match nth_error (getInputs dag) field with
        | Some p => (inr p, dag)
        | None => (inl LOGICAL_ERROR, dag)
        end
  | Literal t value => addColumnToActionsDAG t value
  end.

Fixpoint parseExpressions (es : list Expression) : Build (list nat) :=
  match es with
  | [] => ret []
  | e :: rest =>
      p <- parseExpression e ;;
      ps <- parseExpressions rest ;;
      ret (p :: ps)
  end.

(** Modelled from the spec: the argument nodes are "obtained by
    recursively parsing each argument expression", in order, into the
    shared builder. *)
Definition parseFunctionArguments (substrait_func : Expression_ScalarFunction)
  : Build (list nat) :=
  parseExpressions (arguments substrait_func).

(** Modelled from the spec: step 6 of section 4.4, the coercion to the
    caller's expected result type, applied only when the types differ. *)
Definition convertNodeTypeIfNeeded (substrait_func : Expression_ScalarFunction)
    (func_node : nat) : Build nat :=
  n <- getNode func_node ;;
  if DataType_eqb (output_type substrait_func) (result_type n)
  then ret func_node
  else convertNodeType func_node (output_type substrait_func) (result_name n).

(* ================================================================== *)
(** * The [sequence] handler *)

Module FunctionParserSequence.

Definition name : string := "sequence".

Definition getName : string := name.

(** Lines 65-133 of [sequence.cpp]: everything up to the node handed to
    the final coercion ([ret_node] of line 110 or [result_node] of line
    123). *)
Definition parseNode (substrait_func : Expression_ScalarFunction)
  : Build nat :=
  parsed_args <- parseFunctionArguments substrait_func ;;
  if ((List.length parsed_args <? 2) || (3 <? List.length parsed_args))%nat
  then throw (NUMBER_OF_ARGUMENTS_DOESNT_MATCH getName)
  else
    let start_arg := nth 0 parsed_args 0%nat in
    let end_arg := nth 1 parsed_args 0%nat in
    let step_arg0 :=
      if (List.length parsed_args =? 3)%nat
      then Some (nth 2 parsed_args 0%nat) else None in
    one_const_node <- addColumnToActionsDAG Int32 (FInt 1) ;;
    step_arg <-
      match step_arg0 with
      | Some s => ret s
      | None =>
          minus_one_const_node <- addColumnToActionsDAG Int32 (FInt (-1)) ;;
          start_le_end_node <-
            toFunctionNode "lessOrEquals" [start_arg; end_arg] ;;
          step_if_node <-
            toFunctionNode "if"
              [start_le_end_node; one_const_node; minus_one_const_node] ;;
          ret step_if_node
      end ;;
    start <- getNode start_arg ;;
    end_ <- getNode end_arg ;;
    step <- getNode step_arg ;;
    let is_arr_nullable := isNullable (result_type start) in
    let is_val_nullable := isNullable (result_type end_) in
    let is_step_nullable := isNullable (result_type step) in
    start_not_null_node <- toFunctionNode "assumeNotNull" [start_arg] ;;
    end_not_null_node <- toFunctionNode "assumeNotNull" [end_arg] ;;
    step_not_null_node <- toFunctionNode "assumeNotNull" [step_arg] ;;
    start_is_null_node <- toFunctionNode "isNull" [start_arg] ;;
    end_is_null_node <- toFunctionNode "isNull" [end_arg] ;;
    step_is_null_node <- toFunctionNode "isNull" [step_arg] ;;
    end_minus_start_node <- toFunctionNode "minus" [end_arg; start_arg] ;;
    modulo_step_node <-
      toFunctionNode "modulo" [end_minus_start_node; step_arg] ;;
    zero_const_node <- addColumnToActionsDAG Int32 (FInt 0) ;;
    modulo_step_eq_zero_node <-
      toFunctionNode "equals" [modulo_step_node; zero_const_node] ;;
    tricky_step_node <-
      toFunctionNode "if"
        [step_is_null_node; one_const_node; step_not_null_node] ;;
    end_plus_step_node <-
      toFunctionNode "plus" [end_not_null_node; step_not_null_node] ;;
    range_1_node <-
      toFunctionNode "range"
        [start_not_null_node; end_plus_step_node; tricky_step_node] ;;
    range_2_node <-
      toFunctionNode "range"
        [start_not_null_node; end_not_null_node; tricky_step_node] ;;
    if negb is_arr_nullable && negb is_val_nullable && negb is_step_nullable
    then
      toFunctionNode "if"
        [modulo_step_eq_zero_node; range_1_node; range_2_node]
    else
      range_1 <- getNode range_1_node ;;
      range_2 <- getNode range_2_node ;;
      let result_type_ := makeNullable (result_type range_1) in
      wrap_range_1_node <-
        convertNodeType range_1_node result_type_ (result_name range_1) ;;
      wrap_range_2_node <-
        convertNodeType range_2_node result_type_ (result_name range_2) ;;
      null_const_node <- addColumnToActionsDAG result_type_ Null ;;
      toFunctionNode "multiIf"
        [start_is_null_node; null_const_node;
         end_is_null_node; null_const_node;
         step_is_null_node; null_const_node;
         modulo_step_eq_zero_node; wrap_range_1_node;
         wrap_range_2_node].

(** [FunctionParserSequence::parse]. *)
Definition parse (substrait_func : Expression_ScalarFunction) : Build nat :=
  node <- parseNode substrait_func ;;
  convertNodeTypeIfNeeded substrait_func node.

End FunctionParserSequence.

(* ================================================================== *)
(** * The subtree rooted at a node *)

(** The expression a node stands for, with shared nodes unfolded. *)
#[warnings="-register-all"] Inductive Tree : Type :=
| TInput (position : nat)
| TConst (t : DataType) (value : Field)
| TFun (function : string) (args : list Tree)
| TBad.

(** Unfolds the graph below [p] down to input and constant nodes.
    [TBad] marks a dangling pointer or exhausted depth. *)
Fixpoint treeOf (depth : nat) (dag : ActionsDAG) (p : nat) : Tree :=
  match depth with
  | O => TBad
  | S depth' =>
      match nth_error dag p with
      | None => TBad
      | Some n =>
          match type n with
          | INPUT => TInput p
          | COLUMN value => TConst (result_type n) value
          | FUNCTION function =>
              TFun function (map (treeOf depth' dag) (children n))
          end
      end
  end.

(** Number of applications of [function] in a tree. *)
Fixpoint countFunction (function : string) (t : Tree) : nat :=
  match t with
  | TFun g args =>
      ((if String.eqb function g then 1 else 0)
       + list_sum (map (countFunction function) args))%nat
  | _ => 0%nat
  end.

(** The builder lists every node after the nodes it refers to. *)
Definition wellFormed (dag : ActionsDAG) : Prop :=
  forall p n, nth_error dag p = Some n ->
              Forall (fun c => (c < p)%nat) (children n).

(* ================================================================== *)
(** * Row-wise execution *)

Inductive Value : Type :=
| VNull
| VInt (z : Z)
| VArray (elements : list Z).

Definition valueOfField (f : Field) : Value :=
  match f with Null => VNull | FInt z => VInt z end.

(** Modelled from the spec: the default a non-null assertion exposes when
    the value is absent (the "zero-looking step" of section 4.4, step 4). *)
Definition defaultValue (t : DataType) : Value :=
  match t with
  | Array _ => VArray []
  | Nullable _ | Nothing => VNull
  | _ => VInt 0
  end.

(** Modelled from the spec: the half-open progression of the [range]
    primitive, from [a] towards [b] by [c], never reaching [b]. *)
Definition rangeLength (a b c : Z) : nat :=
  if 0 <? c then
    if a <? b then Z.to_nat ((b - a + c - 1) / c) else 0%nat
  else
    if b <? a then Z.to_nat ((a - b + (- c) - 1) / (- c)) else 0%nat.

Definition rangeElements (a b c : Z) : list Z :=
  map (fun k => a + Z.of_nat k * c) (seq 0 (rangeLength a b c)).

Definition boolValue (b : bool) : Value := VInt (if b then 1 else 0).

Definition isTrue (v : Value) : bool :=
  match v with VInt z => negb (z =? 0) | _ => false end.

Fixpoint multiIfValue (args : list Value) : option Value :=
  match args with
  | [e] => Some e
  | c :: v :: rest => if isTrue c then Some v else multiIfValue rest
  | _ => None
  end.

(** Modelled from the spec: the engine's integers have the width of
    their type (the "numeric width" of section 4.1).  The values of an
    integer type, as a half-open interval; a nullable type has the values
    of the type it wraps. *)
Definition integerBounds (t : DataType) : Z * Z :=
  match removeNullable t with
  | UInt8 => (0, 256)
  | Int8 => (-128, 128)
  | Int16 => (-32768, 32768)
  | Int32 => (-2147483648, 2147483648)
  | Int64 => (-9223372036854775808, 9223372036854775808)
  | _ => (0, 0)
  end.

(** [z] is a value of the integer type [t]. *)
Definition inRange (t : DataType) (z : Z) : Prop :=
  fst (integerBounds t) <= z < snd (integerBounds t).

(** Modelled from the spec: a result stored in a fixed-width integer
    type wraps around, modulo 2^8 for the unsigned byte, in two's
    complement for the signed types.  Values of other types are left
    alone. *)
Definition wrapInteger (t : DataType) (z : Z) : Z :=
  if isInteger (removeNullable t)
  then let (lo, hi) := integerBounds t in (z - lo) mod (hi - lo) + lo
  else z.

(** The element type of an array type, nullable or not. *)
Definition arrayElement (t : DataType) : DataType :=
  match removeNullable t with
  | Array e => e
  | _ => Nothing
  end.

(** Modelled from the spec: a cast keeps NULL when the target admits it
    and fails otherwise, stores an integer in the target type and an
    array element by element in the target's element type. *)
Definition castValue (t : DataType) (v : Value) : option Value :=
  match v with
  | VNull => if isNullable t then Some VNull else None
  | VInt z => Some (VInt (wrapInteger t z))
  | VArray l => Some (VArray (map (wrapInteger (arrayElement t)) l))
  end.

(** Modelled from the spec: the "engine-defined semantics" of the
    primitives the handler targets (section 6).  [t] is the result type
    of the node: [plus], [minus] and [modulo] compute in it and wrap
    around at its width, so that the sum of two 64-bit integers
    overflows as it does in the engine.  [None] is an exception raised
    by the engine: [range] rejects a zero step, [modulo] a zero divisor,
    a cast of NULL to a non-nullable type fails.  [range] runs in either
    direction, as the descending sequences of section 8 need; its
    elements lie between its first two arguments, so they are not
    wrapped again.  Ordinary functions return NULL on a NULL argument;
    [isNull], [assumeNotNull] and the conditionals see NULLs; a NULL
    condition counts as false. *)
Definition applyFunction (function : string) (t : DataType)
    (args : list Value) : option Value :=
  if String.eqb function "isNull" then
    match args with
    | [VNull] => Some (boolValue true)
    | [_] => Some (boolValue false)
    | _ => None
    end
  else if String.eqb function "assumeNotNull" then
    match args with
    | [VNull] => Some (defaultValue t)
    | [v] => Some v
    | _ => None
    end
  else if String.eqb function "if" then
    match args with
    | [c; a; b] => Some (if isTrue c then a else b)
    | _ => None
    end
  else if String.eqb function "multiIf" then multiIfValue args
  else if String.eqb function "CAST" then
    match args with
    | [v] => castValue t v
    | _ => None
    end
  else if String.eqb function "range" then
    match args with
    | [VInt a; VInt b; VInt c] =>
        if c =? 0 then None else Some (VArray (rangeElements a b c))
    | [VArray _; _; _] | [_; VArray _; _] | [_; _; VArray _] => None
    | [_; _; _] => Some VNull
    | _ => None
    end
  else
    match args with
    | [VInt a; VInt b] =>
        if String.eqb function "lessOrEquals" then Some (boolValue (a <=? b))
        else if String.eqb function "equals" then Some (boolValue (a =? b))
        else if String.eqb function "plus" then
          Some (VInt (wrapInteger t (a + b)))
        else if String.eqb function "minus" then
          Some (VInt (wrapInteger t (a - b)))
        else if String.eqb function "modulo" then
          if b =? 0 then None else Some (VInt (wrapInteger t (Z.rem a b)))
        else None
    | [VArray _; _] | [_; VArray _] => None
    | [_; _] =>
        if String.eqb function "lessOrEquals" || String.eqb function "equals"
           || String.eqb function "plus" || String.eqb function "minus"
           || String.eqb function "modulo"
        then Some VNull else None
    | _ => None
    end.

(** All argument values, or [None] if one of them raised. *)
Fixpoint allValues (vs : list (option Value)) : option (list Value) :=
  match vs with
  | [] => Some []
  | Some v :: rest => option_map (cons v) (allValues rest)
  | None :: _ => None
  end.

Definition lookupValue (done : list (option Value)) (p : nat)
  : option Value :=
  match nth_error done p with Some v => v | None => None end.

(** Value of node [n] on a row, given the values of the nodes before it.
    Arguments are evaluated before the function is applied, conditionals
    included.  This is the source's own premise: by the comment at lines
    100-101, [range] throws on a NULL step although the null guard would
    discard its result, which is why line 102 builds the guarded step;
    section 9 of the spec records the premise as implicit in the
    source. *)
Definition nodeValue (row : list Value) (inputsBefore : nat) (n : Node)
    (done : list (option Value)) : option Value :=
  match type n with
  | INPUT => nth_error row inputsBefore
  | COLUMN value => Some (valueOfField value)
  | FUNCTION function =>
      match allValues (map (lookupValue done) (children n)) with
      | Some args => applyFunction function (result_type n) args
      | None => None
      end
  end.

(** Values of the first [k] nodes on a row, in creation order. *)
Fixpoint execute (dag : ActionsDAG) (row : list Value) (k : nat)
  : list (option Value) :=
  match k with
  | O => []
  | S k' =>
      let done := execute dag row k' in
      match nth_error dag k' with
      | Some n =>
          done ++
          [nodeValue row (List.length (getInputs (firstn k' dag))) n done]
      | None => done ++ [None]
      end
  end.

(** Value of node [p] on a row whose input columns hold [row]. *)
Definition valueOf (dag : ActionsDAG) (row : list Value) (p : nat)
  : option Value :=
  lookupValue (execute dag row (List.length dag)) p.

(** The progression in the words of section 4.4: from [start] by [step]
    up to and including the last term that does not pass [end_]. *)
Definition progression (start end_ step : Z) : list Z :=
  map (fun k => start + Z.of_nat k * step)
      (seq 0 (S (Z.to_nat (Z.abs (end_ - start) / Z.abs step)))).

(* ================================================================== *)
(** * The join storage *)

(** [DB::JoinKind]. *)
Inductive JoinKind : Type :=
| Inner | Left | Right | Full | Cross | Comma | Paste.

(** [DB::JoinStrictness]. *)
Inductive JoinStrictness : Type :=
| Unspecified | RightAny | Any | All | Asof | Semi | Anti.

(** [DB::isLeftOrFull]. *)
Definition isLeftOrFull (kind : JoinKind) : bool :=
  match kind with Left | Full => true | _ => false end.

(** [DB::ColumnWithTypeAndName], without the column data. *)
Record ColumnWithTypeAndName : Type := {
  column_type : DataType;
  column_name : string
}.

(** [DB::Block]. *)
Definition Block : Type := list ColumnWithTypeAndName.

(** [DB::StorageInMemoryMetadata], reduced to the sample block it
    produces. *)
Record StorageInMemoryMetadata : Type := {
  getSampleBlock : Block
}.

Module StorageJoinFromReadBuffer.

(** The data members of the class that are plain data. *)
Record t : Type := {
  storage_metadata_ : StorageInMemoryMetadata;
  sample_block : Block;
  key_names : list string;
  use_nulls : bool;
  kind : JoinKind;
  strictness : JoinStrictness;
  overwrite : bool
}.

Section GetRightSampleBlock.

(** [DB::JoinCommon::convertColumnToNullable], a primitive of the engine:
    it rewrites one column in place. *)
Variable convertColumnToNullable :
  ColumnWithTypeAndName -> ColumnWithTypeAndName.

(** Replaces the column at position [i]. *)
Fixpoint setColumn (block : Block) (i : nat) (col : ColumnWithTypeAndName)
  : Block :=
  match block, i with
  | [], _ => []
  | _ :: rest, O => col :: rest
  | c :: rest, S i' => c :: setColumn rest i' col
  end.

(** The loop [for (auto & col : block)] of lines 52-55: [count] steps
    starting at position [i], each rewriting one column of the local
    [block] through its reference. *)
Fixpoint convertColumns (count i : nat) (block : Block) : Block :=
  match count with
  | O => block
  | S count' =>
      match nth_error block i with
      | Some col =>
          convertColumns count' (S i)
            (setColumn block i (convertColumnToNullable col))
      | None => block
      end
  end.

(** [getRightSampleBlock]: the returned block and the object after the
    call. *)
Definition getRightSampleBlock (this : t) : Block * t :=
  let block := getSampleBlock (storage_metadata_ this) in
  let block :=
    if use_nulls this && isLeftOrFull (kind this)
    then convertColumns (List.length block) 0 block
    else block in
  (block, this).

End GetRightSampleBlock.

End StorageJoinFromReadBuffer.

(* ================================================================== *)
(** * Predicates on builder states *)

(** The builder only appends: [dag'] is [dag] with nodes added. *)
Definition extends (dag dag' : ActionsDAG) : Prop :=
  exists added, dag' = dag ++ added.

(** Node [p] applies [function] to [args] and has result type [t]. *)
Definition FunctionAt (dag : ActionsDAG) (p : nat) (function : string)
    (args : list nat) (t : DataType) : Prop :=
  exists name, nth_error dag p = Some (mkNode (FUNCTION function) args t name).

(** Node [p] is the constant [value] of type [t]. *)
Definition ConstAt (dag : ActionsDAG) (p : nat) (t : DataType)
    (value : Field) : Prop :=
  exists name, nth_error dag p = Some (mkNode (COLUMN value) [] t name).

(** Node [p] exists and has result type [t]. *)
Definition TypeAt (dag : ActionsDAG) (p : nat) (t : DataType) : Prop :=
  exists n, nth_error dag p = Some n /\ result_type n = t.

(** Node [p] is an input column or a constant. *)
Definition LeafAt (dag : ActionsDAG) (p : nat) : Prop :=
  exists n, nth_error dag p = Some n /\
            forall function, type n <> FUNCTION function.

(* ================================================================== *)
(** * The nodes built by the handler *)

(** The locals of [FunctionParserSequence::parse] (node pointers under
    their names in the source) together with the result types of the
    nodes they point to. *)
Record SequenceNodes : Type := {
  start_arg : nat;
  end_arg : nat;
  step_arg : nat;
  start_type : DataType;
  end_type : DataType;
  step_type : DataType;
  one_const_node : nat;
  start_not_null_node : nat;
  end_not_null_node : nat;
  step_not_null_node : nat;
  start_is_null_node : nat;
  end_is_null_node : nat;
  step_is_null_node : nat;
  end_minus_start_node : nat;
  modulo_step_node : nat;
  zero_const_node : nat;
  modulo_step_eq_zero_node : nat;
  tricky_step_node : nat;
  end_plus_step_node : nat;
  range_1_node : nat;
  range_2_node : nat;
  minus_type : DataType;
  modulo_type : DataType;
  equals_type : DataType;
  tricky_type : DataType;
  plus_type : DataType;
  range_1_type : DataType;
  range_2_type : DataType
}.

(** Lines 83-106: the nodes every run builds, in the final builder. *)
Definition Built (dag : ActionsDAG) (s : SequenceNodes) : Prop :=
  TypeAt dag (start_arg s) (start_type s) /\
  TypeAt dag (end_arg s) (end_type s) /\
  TypeAt dag (step_arg s) (step_type s) /\
  ConstAt dag (one_const_node s) Int32 (FInt 1) /\
  FunctionAt dag (start_not_null_node s) "assumeNotNull" [start_arg s]
    (removeNullable (start_type s)) /\
  FunctionAt dag (end_not_null_node s) "assumeNotNull" [end_arg s]
    (removeNullable (end_type s)) /\
  FunctionAt dag (step_not_null_node s) "assumeNotNull" [step_arg s]
    (removeNullable (step_type s)) /\
  FunctionAt dag (start_is_null_node s) "isNull" [start_arg s] UInt8 /\
  FunctionAt dag (end_is_null_node s) "isNull" [end_arg s] UInt8 /\
  FunctionAt dag (step_is_null_node s) "isNull" [step_arg s] UInt8 /\
  (FunctionAt dag (end_minus_start_node s) "minus" [end_arg s; start_arg s]
     (minus_type s) /\
   resolveType "minus" [end_type s; start_type s] = Some (minus_type s)) /\
  (FunctionAt dag (modulo_step_node s) "modulo"
     [end_minus_start_node s; step_arg s] (modulo_type s) /\
   resolveType "modulo" [minus_type s; step_type s] = Some (modulo_type s)) /\
  ConstAt dag (zero_const_node s) Int32 (FInt 0) /\
  (FunctionAt dag (modulo_step_eq_zero_node s) "equals"
     [modulo_step_node s; zero_const_node s] (equals_type s) /\
   resolveType "equals" [modulo_type s; Int32] = Some (equals_type s)) /\
  (FunctionAt dag (tricky_step_node s) "if"
     [step_is_null_node s; one_const_node s; step_not_null_node s]
     (tricky_type s) /\
   resolveType "if" [UInt8; Int32; removeNullable (step_type s)]
   = Some (tricky_type s)) /\
  (FunctionAt dag (end_plus_step_node s) "plus"
     [end_not_null_node s; step_not_null_node s] (plus_type s) /\
   resolveType "plus"
     [removeNullable (end_type s); removeNullable (step_type s)]
   = Some (plus_type s)) /\
  (FunctionAt dag (range_1_node s) "range"
     [start_not_null_node s; end_plus_step_node s; tricky_step_node s]
     (range_1_type s) /\
   resolveType "range"
     [removeNullable (start_type s); plus_type s; tricky_type s]
   = Some (range_1_type s)) /\
  (FunctionAt dag (range_2_node s) "range"
     [start_not_null_node s; end_not_null_node s; tricky_step_node s]
     (range_2_type s) /\
   resolveType "range"
     [removeNullable (start_type s); removeNullable (end_type s);
      tricky_type s]
   = Some (range_2_type s)).

(** Line 108: whether the handler takes the branch without null guards. *)
Definition noneNullable (s : SequenceNodes) : bool :=
  negb (isNullable (start_type s)) && negb (isNullable (end_type s))
  && negb (isNullable (step_type s)).

(** Lines 108-133: the node handed to the output coercion, of result
    type [t]. *)
Definition Final (dag : ActionsDAG) (s : SequenceNodes) (node : nat)
    (t : DataType) : Prop :=
  if noneNullable s then
    FunctionAt dag node "if"
      [modulo_step_eq_zero_node s; range_1_node s; range_2_node s] t /\
    resolveType "if" [equals_type s; range_1_type s; range_2_type s] = Some t
  else
    let result_type_ := makeNullable (range_1_type s) in
    exists wrap_range_1_node wrap_range_2_node null_const_node,
      FunctionAt dag wrap_range_1_node "CAST" [range_1_node s] result_type_ /\
      FunctionAt dag wrap_range_2_node "CAST" [range_2_node s] result_type_ /\
      ConstAt dag null_const_node result_type_ Null /\
      FunctionAt dag node "multiIf"
        [start_is_null_node s; null_const_node;
         end_is_null_node s; null_const_node;
         step_is_null_node s; null_const_node;
         modulo_step_eq_zero_node s; wrap_range_1_node;
         wrap_range_2_node] t /\
      resolveType "multiIf"
        [UInt8; result_type_; UInt8; result_type_; UInt8; result_type_;
         equals_type s; result_type_; result_type_] = Some t.

(** Lines 75-81: the step synthesized for a two-argument call. *)
Definition DefaultStep (dag : ActionsDAG) (s : SequenceNodes) : Prop :=
  exists minus_one_const_node start_le_end_node le_type,
    ConstAt dag minus_one_const_node Int32 (FInt (-1)) /\
    FunctionAt dag start_le_end_node "lessOrEquals"
      [start_arg s; end_arg s] le_type /\
    resolveType "lessOrEquals" [start_type s; end_type s] = Some le_type /\
    FunctionAt dag (step_arg s) "if"
      [start_le_end_node; one_const_node s; minus_one_const_node]
      (step_type s) /\
    resolveType "if" [le_type; Int32; Int32] = Some (step_type s).

(** How the parsed arguments map to [start_arg], [end_arg], [step_arg]. *)
Definition Arguments (dag : ActionsDAG) (s : SequenceNodes)
    (parsed_args : list nat) : Prop :=
  (parsed_args = [start_arg s; end_arg s] /\ DefaultStep dag s) \/
  parsed_args = [start_arg s; end_arg s; step_arg s].

(** The step is non-zero and points from [start] to [end_]. *)
Definition pointsTowards (start end_ step : Z) : Prop :=
  (0 < step /\ start <= end_) \/ (step < 0 /\ end_ <= start).

(** A value an integer column can hold on a row: an integer or NULL. *)
Definition scalarValue (v : Value) : Prop :=
  match v with VArray _ => False | _ => True end.

(* ================================================================== *)
(** * Expected subtrees *)

(** The tree of an argument node, which is an input or a constant. *)
Definition leafTree (dag : ActionsDAG) (p : nat) : Tree := treeOf 1 dag p.

Definition notNull (x : Tree) : Tree := TFun "assumeNotNull" [x].

Definition constInt32 (z : Z) : Tree := TConst Int32 (FInt z).

(** Lines 78-79: [if(start <= end, 1, -1)]. *)
Definition defaultStepTree (start end_ : Tree) : Tree :=
  TFun "if" [TFun "lessOrEquals" [start; end_]; constInt32 1; constInt32 (-1)].

(** Line 102: [if(isNull(step), 1, assumeNotNull(step))]. *)
Definition stepForRangeTree (step : Tree) : Tree :=
  TFun "if" [TFun "isNull" [step]; constInt32 1; notNull step].

(** Lines 95-98: [equals(modulo(minus(end, start), step), 0)]. *)
Definition inclusiveTree (start end_ step : Tree) : Tree :=
  TFun "equals"
    [TFun "modulo" [TFun "minus" [end_; start]; step]; constInt32 0].

(** Lines 104-105: [range(start', plus(end', step'), stepForRange)]. *)
Definition rangeInclTree (start end_ step : Tree) : Tree :=
  TFun "range"
    [notNull start; TFun "plus" [notNull end_; notNull step];
     stepForRangeTree step].

(** Line 106: [range(start', end', stepForRange)]. *)
Definition rangeExclTree (start end_ step : Tree) : Tree :=
  TFun "range" [notNull start; notNull end_; stepForRangeTree step].

(** Line 110: [if(inclusive, rangeIncl, rangeExcl)]. *)
Definition plainResultTree (start end_ step : Tree) : Tree :=
  TFun "if"
    [inclusiveTree start end_ step; rangeInclTree start end_ step;
     rangeExclTree start end_ step].

(** Lines 115-133: the multi-way conditional over the null tests, with
    both ranges cast to the nullable result type [t]. *)
Definition guardedResultTree (t : DataType) (start end_ step : Tree) : Tree :=
  TFun "multiIf"
    [TFun "isNull" [start]; TConst t Null;
     TFun "isNull" [end_]; TConst t Null;
     TFun "isNull" [step]; TConst t Null;
     inclusiveTree start end_ step;
     TFun "CAST" [rangeInclTree start end_ step];
     TFun "CAST" [rangeExclTree start end_ step]].

(** The inclusive range as the spec words it (section 4.4, step 4):
    [range(start', end' + stepForRange, stepForRange)]. *)
Definition specRangeInclTree (start end_ step : Tree) : Tree :=
  TFun "range"
    [notNull start; TFun "plus" [notNull end_; stepForRangeTree step];
     stepForRangeTree step].

(** The selection condition as the spec words it (section 4.4, step 4):
    [(end' - start') mod step' == 0]. *)
Definition specInclusiveTree (start end_ step : Tree) : Tree :=
  TFun "equals"
    [TFun "modulo"
       [TFun "minus" [notNull end_; notNull start]; notNull step];
     constInt32 0].

(** The tree of the step the handler works with: the third argument, or
    the synthesized default. *)
Definition stepTree (dag : ActionsDAG) (s : SequenceNodes)
    (parsed_args : list nat) : Tree :=
  match parsed_args with
  | [_; _; step] => leafTree dag step
  | _ => defaultStepTree (leafTree dag (start_arg s))
                         (leafTree dag (end_arg s))
  end.

(* ================================================================== *)
(** * Sample calls *)

(** A non-nullable 32-bit integer literal. *)
Definition int32 (z : Z) : Expression := Literal Int32 (FInt z).

(** A nullable 32-bit integer literal, possibly NULL. *)
Definition nullableInt32 (value : Field) : Expression :=
  Literal (Nullable Int32) value.

(** [sequence(args...)] with the result type the caller expects. *)
Definition sequenceCall (args : list Expression) (expected : DataType)
  : Expression_ScalarFunction :=
  {| arguments := args; output_type := expected |}.

(** Runs the handler on an empty builder and evaluates the returned node
    on the empty row. *)
Definition runOnLiterals (c : Expression_ScalarFunction)
  : Exception + option Value :=
  match FunctionParserSequence.parse c [] with
  | (inr node, dag) => inr (valueOf dag [] node)
  | (inl e, _) => inl e
  end.

(* ================================================================== *)
(** * Well-typed calls *)

(** An integer type, possibly nullable. *)
Definition integerType (t : DataType) : Prop :=
  isInteger (removeNullable t) = true.

(** An array of integers, possibly nullable. *)
Definition integerArrayType (t : DataType) : Prop :=
  exists element, removeNullable t = Array element /\
                  isInteger element = true.

(* ================================================================== *)
(** * Footprint of a builder computation *)

(** [dag'] is [dag] followed by at most [k] new nodes, none of them an
    input column, and is topologically ordered if [dag] was. *)
Definition grows (k : nat) (dag dag' : ActionsDAG) : Prop :=
  exists added,
    dag' = dag ++ added /\ (List.length added <= k)%nat /\
    Forall (fun n => type n <> INPUT) added /\
    (wellFormed dag -> wellFormed dag').

(** Whatever the builder it starts from and however it ends, [m] appends
    at most [k] nodes, throws only exceptions in [allowed] and returns
    only values in [returned]. *)
Definition adds {A} (k : nat) (allowed : Exception -> Prop)
    (returned : A -> Prop) (m : Build A) : Prop :=
  forall dag outcome dag',
    m dag = (outcome, dag') ->
    grows k dag dag' /\
    match outcome with
    | inl e => allowed e
    | inr a => returned a
    end.

(** The exceptions raised below the handler: by the builder's type
    resolution or by a dangling reference. *)
Definition builderError (e : Exception) : Prop :=
  e = TYPE_MISMATCH \/ e = LOGICAL_ERROR.

(** The exceptions [parse] can end with: those of the builder, or the
    arity error naming the handler, the latter only on a call that has
    neither two nor three arguments. *)
Definition handlerError (c : Expression_ScalarFunction) (e : Exception)
  : Prop :=
  builderError e \/
  (e = NUMBER_OF_ARGUMENTS_DOESNT_MATCH FunctionParserSequence.getName /\
   List.length (arguments c) <> 2%nat /\
   List.length (arguments c) <> 3%nat).

(* ================================================================== *)
(** * Properties of the join storage *)

Section JoinProperties.

Import StorageJoinFromReadBuffer.

Variable convert : ColumnWithTypeAndName -> ColumnWithTypeAndName.

Lemma setColumn_middle (done rest : Block) (c col : ColumnWithTypeAndName) :
  setColumn (done ++ c :: rest) (List.length done) col = done ++ col :: rest.
Proof.
  induction done as [|d done IH]; simpl; [reflexivity|].
  now rewrite IH.
Qed.

Lemma convertColumns_suffix (rest done : Block) :
  convertColumns convert (List.length rest) (List.length done) (done ++ rest)
  = done ++ map convert rest.
Proof.
  revert done.
  induction rest as [|c rest IH]; intros done; simpl; [reflexivity|].
  rewrite nth_error_app2 by lia.
  rewrite Nat.sub_diag. simpl.
  rewrite setColumn_middle.
  replace (S (List.length done)) with (List.length (done ++ [convert c]))
    by (rewrite length_app; simpl; lia).
  replace (done ++ convert c :: rest)
    with ((done ++ [convert c]) ++ rest)
    by (rewrite <- app_assoc; reflexivity).
  rewrite IH. rewrite <- app_assoc. reflexivity.
Qed.

Lemma convertColumns_all (block : Block) :
  convertColumns convert (List.length block) 0 block = map convert block.
Proof. exact (convertColumns_suffix block []). Qed.

(** C10.  [getRightSampleBlock] returns the sample block of the stored
    metadata with every column passed through [convertColumnToNullable]
    exactly when [use_nulls] is set and the kind is LEFT or FULL, returns
    the sample block itself in every other case, and leaves the storage
    object as it was. *)
Theorem getRightSampleBlock_nullable_iff_left_or_full (this : t) :
  let stored := getSampleBlock (storage_metadata_ this) in
  fst (getRightSampleBlock convert this)
  = match use_nulls this, kind this with
    | true, Left | true, Full => map convert stored
    | _, _ => stored
    end
  /\ snd (getRightSampleBlock convert this) = this.
Proof.
  unfold getRightSampleBlock; simpl. split; [|reflexivity].
  destruct (use_nulls this), (kind this); simpl;
    try reflexivity; apply convertColumns_all.
Qed.

End JoinProperties.

(* ================================================================== *)
(** * The builder only appends *)

Lemma extends_refl dag : extends dag dag.
Proof. exists []. now rewrite app_nil_r. Qed.

Lemma extends_trans a b c : extends a b -> extends b c -> extends a c.
Proof.
  intros [x ->] [y ->]. exists (x ++ y). now rewrite app_assoc.
Qed.

Lemma extends_nth_error dag dag' p n :
  extends dag dag' -> nth_error dag p = Some n -> nth_error dag' p = Some n.
Proof.
  intros [x ->] H. rewrite nth_error_app1; [assumption|].
  apply nth_error_Some. congruence.
Qed.

Lemma findNode_found n dag base p :
  findNode n dag base = Some p ->
  exists i, p = (base + i)%nat /\ nth_error dag i = Some n.
Proof.
  revert base. induction dag as [|m dag IH]; intros base H; simpl in H.
  - discriminate.
  - destruct (Node_eq_dec n m) as [->|_].
    + injection H as <-. exists 0%nat. split; [lia|reflexivity].
    + destruct (IH _ H) as (i & -> & Hi). exists (S i). split; [lia|exact Hi].
Qed.

Lemma wellFormed_snoc dag n :
  wellFormed dag ->
  Forall (fun c => (c < List.length dag)%nat) (children n) ->
  wellFormed (dag ++ [n]).
Proof.
  intros Hwf Hn p m Hp.
  destruct (Nat.lt_ge_cases p (List.length dag)) as [Hlt|Hge].
  - rewrite nth_error_app1 in Hp by assumption. eauto.
  - rewrite nth_error_app2 in Hp by assumption.
    destruct (p - List.length dag)%nat as [|k] eqn:Hk; simpl in Hp.
    + injection Hp as <-. replace p with (List.length dag) by lia. exact Hn.
    + destruct k; discriminate.
Qed.

(** What [addNode] guarantees: it always returns, the old nodes stay where
    they are, and the returned position holds the requested node. *)
Lemma addNode_spec n dag :
  exists p dag',
    addNode n dag = (inr p, dag') /\ extends dag dag' /\
    nth_error dag' p = Some n /\
    (wellFormed dag ->
     Forall (fun c => (c < List.length dag)%nat) (children n) ->
     wellFormed dag').
Proof.
  unfold addNode. destruct (findNode n dag 0) as [p|] eqn:Hf.
  - exists p, dag. destruct (findNode_found _ _ _ Hf) as (i & -> & Hi).
    repeat split; auto using extends_refl.
  - exists (List.length dag), (dag ++ [n]). repeat split.
    + now exists [n].
    + rewrite nth_error_app2 by lia. now rewrite Nat.sub_diag.
    + apply wellFormed_snoc.
Qed.

Lemma getNode_inv p dag r dag' :
  getNode p dag = (r, dag') ->
  dag' = dag /\
  match r with
  | inr n => nth_error dag p = Some n
  | inl e => e = LOGICAL_ERROR /\ nth_error dag p = None
  end.
Proof.
  unfold getNode. destruct (nth_error dag p); intros H; inversion H; auto.
Qed.

Lemma getNodes_inv ps dag r dag' :
  getNodes ps dag = (r, dag') ->
  dag' = dag /\
  match r with
  | inr ns => Forall2 (fun p n => nth_error dag p = Some n) ps ns
  | inl _ => True
  end.
Proof.
  revert r dag'. induction ps as [|p ps IH]; intros r dag' H; simpl in H.
  - inversion H. auto.
  - unfold bind in H. destruct (getNode p dag) as [[e|n] d1] eqn:E1.
    + inversion H; subst. apply getNode_inv in E1. tauto.
    + apply getNode_inv in E1 as [-> Hn].
      destruct (getNodes ps dag) as [[e|ns] d2] eqn:E2.
      * inversion H; subst. destruct (IH _ _ eq_refl). auto.
      * destruct (IH _ _ eq_refl) as [-> Hns].
        inversion H; subst. auto.
Qed.

Lemma getNodes_total ps ns dag :
  Forall2 (fun p n => nth_error dag p = Some n) ps ns ->
  getNodes ps dag = (inr ns, dag).
Proof.
  induction 1 as [|p n ps ns Hp _ IH]; simpl; [reflexivity|].
  unfold bind, getNode. rewrite Hp, IH. reflexivity.
Qed.

Lemma FunctionAt_extends dag dag' p f args t :
  extends dag dag' -> FunctionAt dag p f args t -> FunctionAt dag' p f args t.
Proof. intros He [nm H]. exists nm. eauto using extends_nth_error. Qed.

Lemma ConstAt_extends dag dag' p t v :
  extends dag dag' -> ConstAt dag p t v -> ConstAt dag' p t v.
Proof. intros He [nm H]. exists nm. eauto using extends_nth_error. Qed.

Lemma TypeAt_extends dag dag' p t :
  extends dag dag' -> TypeAt dag p t -> TypeAt dag' p t.
Proof. intros He (n & H & Ht). exists n. eauto using extends_nth_error. Qed.

Lemma LeafAt_extends dag dag' p :
  extends dag dag' -> LeafAt dag p -> LeafAt dag' p.
Proof. intros He (n & H & Ht). exists n. eauto using extends_nth_error. Qed.

Lemma TypeAt_fun dag p t u :
  TypeAt dag p t -> TypeAt dag p u -> t = u.
Proof. intros (n & H & <-) (m & H' & <-). congruence. Qed.

Lemma FunctionAt_TypeAt dag p f args t :
  FunctionAt dag p f args t -> TypeAt dag p t.
Proof. intros [nm H]. eexists. split; [exact H|reflexivity]. Qed.

Lemma ConstAt_TypeAt dag p t v : ConstAt dag p t v -> TypeAt dag p t.
Proof. intros [nm H]. eexists. split; [exact H|reflexivity]. Qed.

Lemma ConstAt_LeafAt dag p t v : ConstAt dag p t v -> LeafAt dag p.
Proof. intros [nm H]. eexists. split; [exact H|]. simpl. discriminate. Qed.

Lemma Forall2_types (dag : ActionsDAG) args (ns : list Node) :
  Forall2 (fun p n => nth_error dag p = Some n) args ns ->
  Forall2 (TypeAt dag) args (map result_type ns).
Proof.
  induction 1; simpl; constructor; auto. eexists; eauto.
Qed.

Lemma Forall2_below (dag : ActionsDAG) args (ns : list Node) :
  Forall2 (fun p n => nth_error dag p = Some n) args ns ->
  Forall (fun c => (c < List.length dag)%nat) args.
Proof.
  induction 1; constructor; auto. apply nth_error_Some. congruence.
Qed.

(** [addColumnToActionsDAG] always returns a constant node. *)
Lemma addColumnToActionsDAG_spec t v dag :
  exists p dag',
    addColumnToActionsDAG t v dag = (inr p, dag') /\ extends dag dag' /\
    ConstAt dag' p t v /\ (wellFormed dag -> wellFormed dag').
Proof.
  unfold addColumnToActionsDAG.
  destruct (addNode_spec
              (mkNode (COLUMN v) [] t (toString v ++ "_" ++ getName t)%string)
              dag) as (p & dag' & E & He & Hn & Hwf).
  exists p, dag'. split; [exact E|]. split; [exact He|].
  split; [eexists; exact Hn|].
  intros H. apply Hwf; [exact H|constructor].
Qed.

(** A returning [toFunctionNode] found its arguments, resolved the result
    type from their types, and returns a node applying the function to
    exactly these arguments. *)
Lemma toFunctionNode_inv f args dag p dag' :
  toFunctionNode f args dag = (inr p, dag') ->
  exists ts t,
    Forall2 (TypeAt dag) args ts /\ resolveType f ts = Some t /\
    FunctionAt dag' p f args t /\ extends dag dag' /\
    (wellFormed dag -> wellFormed dag').
Proof.
  unfold toFunctionNode, bind. intros H.
  destruct (getNodes args dag) as [[e|ns] d1] eqn:E; [discriminate|].
  apply getNodes_inv in E as [-> Hns].
  destruct (resolveType f (map result_type ns)) as [t|] eqn:Ht;
    [|discriminate].
  match type of H with addNode ?n _ = _ =>
    destruct (addNode_spec n dag) as (q & d2 & E2 & He & Hn & Hwf) end.
  rewrite E2 in H. inversion H; subst q d2.
  exists (map result_type ns), t.
  split; [now apply Forall2_types|]. split; [exact Ht|].
  split; [eexists; exact Hn|]. split; [exact He|].
  intros Hw. apply Hwf; [exact Hw|]. simpl. eapply Forall2_below; eauto.
Qed.

(** [toFunctionNode] returns whenever the arguments exist and their types
    are accepted by the function. *)
Lemma toFunctionNode_total f args ts t dag :
  Forall2 (TypeAt dag) args ts -> resolveType f ts = Some t ->
  exists p dag', toFunctionNode f args dag = (inr p, dag').
Proof.
  intros Hts Ht.
  assert (exists ns, Forall2 (fun p n => nth_error dag p = Some n) args ns
                     /\ map result_type ns = ts) as (ns & Hns & Hmap).
  { clear Ht. induction Hts as [|a u args ts (n & Hn & Hu) _ (ns & IH & Hm)].
    - exists []. split; constructor.
    - exists (n :: ns). split; [constructor; auto|simpl; congruence]. }
  unfold toFunctionNode, bind. rewrite (@getNodes_total _ _ _ Hns), Hmap, Ht.
  match goal with |- context [addNode ?n dag] =>
    destruct (addNode_spec n dag) as (q & d2 & E2 & _) end.
  eauto.
Qed.

(** A returning [convertNodeType] returns a cast of the node to the
    target type. *)
Lemma convertNodeType_inv node target nm dag p dag' :
  convertNodeType node target nm dag = (inr p, dag') ->
  exists t, TypeAt dag node t /\ castable t target = true /\
    FunctionAt dag' p "CAST" [node] target /\ extends dag dag' /\
    (wellFormed dag -> wellFormed dag').
Proof.
  unfold convertNodeType, bind. intros H.
  destruct (getNode node dag) as [[e|n] d1] eqn:E; [discriminate|].
  apply getNode_inv in E as [-> Hn].
  destruct (castable (result_type n) target) eqn:Hc; [|discriminate].
  match type of H with addNode ?n _ = _ =>
    destruct (addNode_spec n dag) as (q & d2 & E2 & He & Hq & Hwf) end.
  rewrite E2 in H. inversion H; subst q d2.
  exists (result_type n).
  split; [eexists; eauto|]. split; [exact Hc|].
  split; [eexists; exact Hq|]. split; [exact He|].
  intros Hw. apply Hwf; [exact Hw|]. simpl. constructor; [|constructor].
  apply nth_error_Some. congruence.
Qed.

Lemma getInputsFrom_input dag base p :
  In p (getInputsFrom dag base) ->
  exists i n, p = (base + i)%nat /\ nth_error dag i = Some n /\ type n = INPUT.
Proof.
  revert base. induction dag as [|m dag IH]; intros base H; simpl in H.
  - contradiction.
  - assert (In p (getInputsFrom dag (S base)) ->
            exists i n, p = (base + i)%nat /\
                        nth_error (m :: dag) i = Some n /\ type n = INPUT)
      as Hrest.
    { intros Hin. destruct (IH _ Hin) as (i & n & -> & Hi & Ht).
      exists (S i), n. split; [lia|]. split; assumption. }
    destruct (type m) eqn:Hm; auto.
    destruct H as [<-|Hin]; auto.
    exists 0%nat, m. split; [lia|]. split; [reflexivity|assumption].
Qed.

(** A translated argument is an input column or a constant, and only a
    literal can add a node. *)
Lemma parseExpression_inv e dag p dag' :
  parseExpression e dag = (inr p, dag') ->
  extends dag dag' /\ LeafAt dag' p /\ (wellFormed dag -> wellFormed dag').
Proof.
  destruct e as [field|t v]; simpl; intros H.
  - destruct (nth_error (getInputs dag) field) as [q|] eqn:Hq;
      inversion H; subst q dag'.
    apply nth_error_In in Hq.
    destruct (getInputsFrom_input _ _ _ Hq) as (i & n & -> & Hi & Ht).
    split; [apply extends_refl|]. split; [|auto].
    exists n. split; [exact Hi|]. rewrite Ht. discriminate.
  - destruct (addColumnToActionsDAG_spec t v dag)
      as (q & d & E & He & Hc & Hwf).
    rewrite E in H. inversion H; subst q d.
    split; [exact He|]. split; [|exact Hwf].
    eapply ConstAt_LeafAt; eauto.
Qed.

Lemma parseExpressions_inv es dag ps dag' :
  parseExpressions es dag = (inr ps, dag') ->
  extends dag dag' /\ Forall (LeafAt dag') ps /\
  List.length ps = List.length es /\ (wellFormed dag -> wellFormed dag').
Proof.
  revert dag ps dag'.
  induction es as [|e es IH]; intros dag ps dag' H; simpl in H.
  - inversion H; subst. auto using extends_refl.
  - unfold bind in H.
    destruct (parseExpression e dag) as [[x|p] d1] eqn:E1; [discriminate|].
    destruct (parseExpressions es d1) as [[x|qs] d2] eqn:E2; [discriminate|].
    inversion H; subst ps d2.
    apply parseExpression_inv in E1 as (He1 & Hl1 & Hw1).
    apply IH in E2 as (He2 & Hl2 & Hlen & Hw2).
    split; [eauto using extends_trans|].
    split; [constructor; eauto using LeafAt_extends|].
    split; [simpl; congruence|auto].
Qed.

(** A failing argument translation is the only way [parseExpressions] can
    throw, and then it throws [LOGICAL_ERROR]. *)
Lemma parseExpressions_error es dag e dag' :
  parseExpressions es dag = (inl e, dag') -> e = LOGICAL_ERROR.
Proof.
  revert dag. induction es as [|x es IH]; intros dag H; simpl in H.
  - discriminate.
  - unfold bind in H.
    destruct (parseExpression x dag) as [[y|p] d1] eqn:E1.
    + inversion H; subst. destruct x as [field|t v]; simpl in E1.
      * destruct (nth_error (getInputs dag) field); inversion E1. reflexivity.
      * destruct (addColumnToActionsDAG_spec t v dag) as (q & d & E & _).
        congruence.
    + destruct (parseExpressions es d1) as [[y|qs] d2] eqn:E2.
      * inversion H; subst. eauto.
      * discriminate.
Qed.

(* ================================================================== *)
(** * Stepping through the handler *)

Ltac lift_facts He :=
  repeat match goal with
    | H : FunctionAt ?d _ _ _ _ |- _ =>
        lazymatch type of He with extends d _ =>
          apply (FunctionAt_extends He) in H end
    | H : ConstAt ?d _ _ _ |- _ =>
        lazymatch type of He with extends d _ =>
          apply (ConstAt_extends He) in H end
    | H : TypeAt ?d _ _ |- _ =>
        lazymatch type of He with extends d _ =>
          apply (TypeAt_extends He) in H end
    | H : LeafAt ?d _ |- _ =>
        lazymatch type of He with extends d _ =>
          apply (LeafAt_extends He) in H end
    | H : extends ?d0 ?d |- _ =>
        lazymatch type of He with extends d _ =>
          apply (fun X => extends_trans X He) in H end
    end.

(** Splits the typing of an argument list into one fact per argument and
    identifies types already known. *)
Ltac split_types Hts :=
  repeat match type of Hts with
    | Forall2 _ (_ :: _) _ =>
        let t := fresh "t" in let ts := fresh "ts" in
        let Ht := fresh "Ht" in let Hts' := fresh "Hts" in
        inversion Hts as [|? t ? ts Ht Hts']; subst; clear Hts;
        rename Hts' into Hts
    end;
  inversion Hts; subst; clear Hts.

Ltac known_types :=
  repeat match goal with
    | H : TypeAt ?d ?p ?t, H' : TypeAt ?d ?p ?u |- _ =>
        is_var t;
        assert (t = u) by (exact (TypeAt_fun H H')); subst t; clear H
    | H : TypeAt ?d ?p ?t, H' : FunctionAt ?d ?p _ _ ?u |- _ =>
        assert (t = u) by (exact (TypeAt_fun H (FunctionAt_TypeAt H')));
        first [subst t | subst u]; clear H
    | H : TypeAt ?d ?p ?t, H' : ConstAt ?d ?p ?u _ |- _ =>
        assert (t = u) by (exact (TypeAt_fun H (ConstAt_TypeAt H')));
        first [subst t | subst u]; clear H
    end.

(** One [toFunctionNode] statement: names the node [p] and its type [t]. *)
Tactic Notation "function_step" hyp(H) hyp(Hwf) ident(p) ident(t) ident(Hf)
    ident(Hr) :=
  lazymatch type of H with
  | context [toFunctionNode ?f ?args ?d] =>
      let E := fresh "E" in let d1 := fresh "d" in
      let ts := fresh "ts" in let Hts := fresh "Hts" in
      let He := fresh "He" in let Hw := fresh "Hw" in
      destruct (toFunctionNode f args d) as [[?|p] d1] eqn:E;
      cbv beta iota in H; [discriminate H|];
      apply toFunctionNode_inv in E;
      destruct E as (ts & t & Hts & Hr & Hf & He & Hw);
      split_types Hts; lift_facts He; known_types;
      specialize (Hw Hwf); clear Hwf; rename Hw into Hwf; clear He;
      try (progress cbn in Hr; injection Hr as <-)
  end.

(** One [addColumnToActionsDAG] statement. *)
Tactic Notation "column_step" hyp(H) hyp(Hwf) ident(p) ident(Hc) :=
  lazymatch type of H with
  | context [addColumnToActionsDAG ?t ?v ?d] =>
      let E := fresh "E" in let d1 := fresh "d" in
      let He := fresh "He" in let Hw := fresh "Hw" in
      destruct (addColumnToActionsDAG_spec t v d)
        as (p & d1 & E & He & Hc & Hw);
      rewrite E in H; cbv beta iota in H; clear E; lift_facts He;
      specialize (Hw Hwf); clear Hwf; rename Hw into Hwf; clear He
  end.

(** One dereference of a node pointer. *)
Tactic Notation "node_step" hyp(H) ident(n) ident(Hn) :=
  lazymatch type of H with
  | context [getNode ?p ?d] =>
      let E := fresh "E" in let d1 := fresh "d" in
      destruct (getNode p d) as [[?|n] d1] eqn:E;
      cbv beta iota in H; [discriminate H|];
      apply getNode_inv in E; destruct E as [-> Hn];
      apply (fun X => ex_intro (fun m => nth_error d p = Some m /\
                                         result_type m = result_type n)
                        n (conj X eq_refl)) in Hn;
      change (TypeAt d p (result_type n)) in Hn; known_types
  end.

(** One [convertNodeType] statement. *)
Tactic Notation "convert_step" hyp(H) hyp(Hwf) ident(p) ident(Hf) ident(Hc) :=
  lazymatch type of H with
  | context [convertNodeType ?q ?t ?nm ?d] =>
      let E := fresh "E" in let d1 := fresh "d" in
      let u := fresh "u" in let Hu := fresh "Hu" in
      let He := fresh "He" in let Hw := fresh "Hw" in
      destruct (convertNodeType q t nm d) as [[?|p] d1] eqn:E;
      cbv beta iota in H; [discriminate H|];
      apply convertNodeType_inv in E;
      destruct E as (u & Hu & Hc & Hf & He & Hw);
      lift_facts He; known_types;
      specialize (Hw Hwf); clear Hwf; rename Hw into Hwf; clear He
  end.

(** The statements of lines 83-133, common to both arities. *)
Tactic Notation "sequence_body" hyp(H) hyp(Hwf) :=
  node_step H start_ Hstart; node_step H end_ Hend; node_step H step_ Hstepn;
  function_step H Hwf start_nn start_nn_t Hstart_nn Hstart_nn_t;
  function_step H Hwf end_nn end_nn_t Hend_nn Hend_nn_t;
  function_step H Hwf step_nn step_nn_t Hstep_nn Hstep_nn_t;
  function_step H Hwf start_isnull start_isnull_t Hstart_isnull Hstart_isnull_t;
  function_step H Hwf end_isnull end_isnull_t Hend_isnull Hend_isnull_t;
  function_step H Hwf step_isnull step_isnull_t Hstep_isnull Hstep_isnull_t;
  function_step H Hwf minus_n minus_t Hminus Hminus_t;
  function_step H Hwf modulo_n modulo_t Hmodulo Hmodulo_t;
  column_step H Hwf zero_n Hzero;
  function_step H Hwf eq0_n eq0_t Heq0 Heq0_t;
  function_step H Hwf tricky_n tricky_t Htricky Htricky_t;
  function_step H Hwf plus_n plus_t Hplus Hplus_t;
  function_step H Hwf range1_n range1_t Hrange1 Hrange1_t;
  function_step H Hwf range2_n range2_t Hrange2 Hrange2_t.

(** Lines 108-133 and the bookkeeping that closes [parseNode_inv];
    [args] solves the goal relating the parsed arguments to the locals. *)
Tactic Notation "sequence_result" hyp(H) hyp(Hwf) hyp(Eargs) constr(parsed)
    constr(dag0) constr(a) constr(b) constr(st) constr(start_) constr(end_) constr(step_)
    tactic(args) :=
  let Hnn := fresh "Hnn" in
  destruct (negb (isNullable (result_type start_))
            && negb (isNullable (result_type end_))
            && negb (isNullable (result_type step_))) eqn:Hnn;
  [ function_step H Hwf ret_n ret_t Hret Hret_t
  | node_step H r1 Hr1; node_step H r2 Hr2;
    convert_step H Hwf wrap1 Hwrap1 Hcast1;
    convert_step H Hwf wrap2 Hwrap2 Hcast2;
    column_step H Hwf null_n Hnull;
    function_step H Hwf ret_n ret_t Hret Hret_t ];
  inversion H; subst;
  match goal with
  | Hone : ConstAt _ ?one Int32 (FInt 1),
    Hzero : ConstAt _ ?zero Int32 (FInt 0),
    Hsn : FunctionAt _ ?start_nn "assumeNotNull" [a] _,
    Hen : FunctionAt _ ?end_nn "assumeNotNull" [b] _,
    Htn : FunctionAt _ ?step_nn "assumeNotNull" [st] _,
    Hsi : FunctionAt _ ?start_isnull "isNull" [a] _,
    Hei : FunctionAt _ ?end_isnull "isNull" [b] _,
    Hti : FunctionAt _ ?step_isnull "isNull" [st] _,
    Hmi : FunctionAt _ ?minus_n "minus" [b; a] ?minus_t,
    Hmo : FunctionAt _ ?modulo_n "modulo" [?minus_n; st] ?modulo_t,
    Heq : FunctionAt _ ?eq0_n "equals" [?modulo_n; ?zero] ?eq0_t,
    Htr : FunctionAt _ ?tricky_n "if" [?step_isnull; ?one; ?step_nn] ?tricky_t,
    Hpl : FunctionAt _ ?plus_n "plus" [?end_nn; ?step_nn] ?plus_t,
    Hr1 : FunctionAt _ ?range1_n "range" [?start_nn; ?plus_n; ?tricky_n] ?r1t,
    Hr2 : FunctionAt _ ?range2_n "range" [?start_nn; ?end_nn; ?tricky_n] ?r2t,
    Hret : FunctionAt _ _ _ (_ :: _ :: _ :: _ :: _ :: _) ?ret_t
    |- _ =>
      exists parsed, dag0,
        (Build_SequenceNodes a b st
           (result_type start_) (result_type end_) (result_type step_)
           one start_nn end_nn step_nn start_isnull end_isnull step_isnull
           minus_n modulo_n zero eq0_n tricky_n plus_n range1_n range2_n
           minus_t modulo_t eq0_t tricky_t plus_t r1t r2t), ret_t
  | Hone : ConstAt _ ?one Int32 (FInt 1),
    Hzero : ConstAt _ ?zero Int32 (FInt 0),
    Hsn : FunctionAt _ ?start_nn "assumeNotNull" [a] _,
    Hen : FunctionAt _ ?end_nn "assumeNotNull" [b] _,
    Htn : FunctionAt _ ?step_nn "assumeNotNull" [st] _,
    Hsi : FunctionAt _ ?start_isnull "isNull" [a] _,
    Hei : FunctionAt _ ?end_isnull "isNull" [b] _,
    Hti : FunctionAt _ ?step_isnull "isNull" [st] _,
    Hmi : FunctionAt _ ?minus_n "minus" [b; a] ?minus_t,
    Hmo : FunctionAt _ ?modulo_n "modulo" [?minus_n; st] ?modulo_t,
    Heq : FunctionAt _ ?eq0_n "equals" [?modulo_n; ?zero] ?eq0_t,
    Htr : FunctionAt _ ?tricky_n "if" [?step_isnull; ?one; ?step_nn] ?tricky_t,
    Hpl : FunctionAt _ ?plus_n "plus" [?end_nn; ?step_nn] ?plus_t,
    Hr1 : FunctionAt _ ?range1_n "range" [?start_nn; ?plus_n; ?tricky_n] ?r1t,
    Hr2 : FunctionAt _ ?range2_n "range" [?start_nn; ?end_nn; ?tricky_n] ?r2t,
    Hret : FunctionAt _ _ "if" [?eq0_n; ?range1_n; ?range2_n] ?ret_t
    |- _ =>
      exists parsed, dag0,
        (Build_SequenceNodes a b st
           (result_type start_) (result_type end_) (result_type step_)
           one start_nn end_nn step_nn start_isnull end_isnull step_isnull
           minus_n modulo_n zero eq0_n tricky_n plus_n range1_n range2_n
           minus_t modulo_t eq0_t tricky_t plus_t r1t r2t), ret_t
  end;
  (split; [first [exact Eargs | reflexivity]|]);
  (split; [repeat (apply Forall_cons; [assumption|]); apply Forall_nil|]);
  (split; [args|]);
  (split;
   [unfold Built; simpl; repeat split;
    first [assumption | eapply FunctionAt_TypeAt; eassumption]|]);
  (split;
   [unfold Final, noneNullable; simpl; rewrite Hnn; simpl;
    first [split; assumption | do 3 eexists; repeat split; eassumption]|]);
  split; assumption.

Import FunctionParserSequence.

(** Anatomy of a returning run of lines 65-133: which nodes exist in the
    final builder and how they are wired. *)
Lemma parseNode_inv c dag node dag' :
  wellFormed dag -> parseNode c dag = (inr node, dag') ->
  exists parsed_args dag0 s t,
    parseFunctionArguments c dag = (inr parsed_args, dag0) /\
    Forall (LeafAt dag') parsed_args /\
    Arguments dag' s parsed_args /\ Built dag' s /\ Final dag' s node t /\
    extends dag dag' /\ wellFormed dag'.
Proof.
  intros Hwf H. unfold parseNode, bind, ret in H.
  destruct (parseFunctionArguments c dag) as [[?|parsed_args] dag0] eqn:Eargs;
    [discriminate|].
  pose proof Eargs as Hargs.
  apply parseExpressions_inv in Hargs as (Hext & Hleaf & _ & Hw).
  specialize (Hw Hwf). clear Hwf. rename Hw into Hwf.
  destruct ((List.length parsed_args <? 2)%nat
            || (3 <? List.length parsed_args)%nat) eqn:Harity;
    [discriminate|].
  apply orb_false_elim in Harity as [Hlo Hhi].
  apply Nat.ltb_ge in Hlo, Hhi.
  destruct parsed_args as [|a [|b [|st [|? ?]]]]; simpl in Hlo, Hhi; try lia;
    clear Hlo Hhi; simpl in H.
  - inversion Hleaf as [|? ? Hla Hleaf']; subst.
    inversion Hleaf' as [|? ? Hlb _]; subst. clear Hleaf Hleaf'.
    column_step H Hwf one_n Hone.
    column_step H Hwf minus_one Hminus_one.
    function_step H Hwf start_le_end le_t Hle Hle_t.
    function_step H Hwf st step_t Hstep Hstep_t.
    sequence_body H Hwf.
    sequence_result H Hwf Eargs [a; b] dag0 a b st start_ end_ step_
      (left; split; [reflexivity|]; do 3 eexists; simpl;
       repeat split; eassumption).
  - inversion Hleaf as [|? ? Hla Hleaf']; subst.
    inversion Hleaf' as [|? ? Hlb Hleaf'']; subst.
    inversion Hleaf'' as [|? ? Hlc _]; subst. clear Hleaf Hleaf' Hleaf''.
    column_step H Hwf one_n Hone.
    sequence_body H Hwf.
    sequence_result H Hwf Eargs [a; b; st] dag0 a b st start_ end_ step_
      (right; reflexivity).
Qed.

(* ================================================================== *)
(** * Row-wise execution follows the graph *)

Unset Implicit Arguments.

Lemma execute_length dag row k : List.length (execute dag row k) = k.
Proof.
  induction k as [|k IH]; simpl; [reflexivity|].
  destruct (nth_error dag k); rewrite length_app, IH; simpl; lia.
Qed.

Lemma execute_prefix dag row k k' p :
  (p < k)%nat -> (k <= k')%nat ->
  nth_error (execute dag row k') p = nth_error (execute dag row k) p.
Proof.
  intros Hp Hk. induction Hk as [|k' Hk IH]; [reflexivity|].
  simpl. rewrite <- IH.
  destruct (nth_error dag k');
    (rewrite nth_error_app1; [reflexivity|rewrite execute_length; lia]).
Qed.

Lemma execute_last dag row p n :
  nth_error dag p = Some n ->
  nth_error (execute dag row (S p)) p
  = Some (nodeValue row (List.length (getInputs (firstn p dag))) n
            (execute dag row p)).
Proof.
  intros H. simpl. rewrite H.
  rewrite nth_error_app2 by (rewrite execute_length; lia).
  rewrite execute_length, Nat.sub_diag. reflexivity.
Qed.

Lemma valueOf_node dag row p n :
  nth_error dag p = Some n ->
  valueOf dag row p
  = nodeValue row (List.length (getInputs (firstn p dag))) n
      (execute dag row p).
Proof.
  intros H. unfold valueOf, lookupValue.
  assert (p < List.length dag)%nat as Hp
    by (apply nth_error_Some; congruence).
  rewrite (execute_prefix dag row (S p) (List.length dag) p) by lia.
  now rewrite (execute_last dag row p n H).
Qed.

Lemma lookupValue_before dag row p c :
  (c < p)%nat -> (p <= List.length dag)%nat ->
  lookupValue (execute dag row p) c = valueOf dag row c.
Proof.
  intros Hc Hp. unfold valueOf, lookupValue.
  now rewrite (execute_prefix dag row p (List.length dag) c) by lia.
Qed.

(** The value of a constant node is its literal. *)
Lemma valueOf_const dag row p t v :
  ConstAt dag p t v -> valueOf dag row p = Some (valueOfField v).
Proof. intros [nm H]. now rewrite (valueOf_node dag row p _ H). Qed.

(** The value of a function node: the function applied to the values of
    its arguments, unless one of them raised. *)
Lemma valueOf_function dag row p f args t :
  wellFormed dag -> FunctionAt dag p f args t ->
  valueOf dag row p
  = match allValues (map (valueOf dag row) args) with
    | Some vs => applyFunction f t vs
    | None => None
    end.
Proof.
  intros Hwf [nm H]. rewrite (valueOf_node dag row p _ H).
  unfold nodeValue; simpl.
  assert (p < List.length dag)%nat as Hp
    by (apply nth_error_Some; congruence).
  specialize (Hwf _ _ H). simpl in Hwf.
  replace (map (lookupValue (execute dag row p)) args)
    with (map (valueOf dag row) args); [reflexivity|].
  apply map_ext_in. intros c Hc. symmetry.
  rewrite Forall_forall in Hwf.
  apply lookupValue_before; [auto|lia].
Qed.

(* ================================================================== *)
(** * The range primitive against the progression of the spec *)

Lemma div_ceil_exact x c :
  0 <= x -> 0 < c -> x mod c = 0 -> (x + c + c - 1) / c = x / c + 1.
Proof.
  intros Hx Hc Hr. pose proof (Z.div_mod x c ltac:(lia)) as Hd.
  symmetry. apply Z.div_unique with (r := c - 1); lia.
Qed.

Lemma div_ceil_inexact x c :
  0 <= x -> 0 < c -> x mod c <> 0 -> (x + c - 1) / c = x / c + 1.
Proof.
  intros Hx Hc Hr. pose proof (Z.div_mod x c ltac:(lia)) as Hd.
  pose proof (Z.mod_pos_bound x c Hc) as Hb.
  symmetry. apply Z.div_unique with (r := x mod c - 1); lia.
Qed.

Lemma rem_zero_iff_mod x c :
  0 <= x -> 0 < c -> (Z.rem x c = 0 <-> x mod c = 0).
Proof. intros Hx Hc. rewrite Z.rem_mod_nonneg by lia. tauto. Qed.

(** The remainder test of the handler, on distances and step sizes. *)
Lemma rem_zero_abs a b c :
  pointsTowards a b c ->
  (Z.rem (b - a) c = 0 <-> Z.abs (b - a) mod Z.abs c = 0).
Proof.
  intros [[Hc Hab]|[Hc Hab]].
  - rewrite (Z.abs_eq (b - a)), (Z.abs_eq c) by lia.
    apply rem_zero_iff_mod; lia.
  - rewrite (Z.abs_neq (b - a)), (Z.abs_neq c) by lia.
    rewrite <- (rem_zero_iff_mod (- (b - a)) (- c)) by lia.
    rewrite Z.rem_opp_r by lia. rewrite Z.rem_opp_l by lia. lia.
Qed.

Lemma rangeLength_inclusive a b c :
  pointsTowards a b c -> Z.rem (b - a) c = 0 ->
  rangeLength a (b + c) c = S (Z.to_nat (Z.abs (b - a) / Z.abs c)).
Proof.
  intros Hdir Hrem. apply (rem_zero_abs a b c Hdir) in Hrem.
  unfold rangeLength. destruct Hdir as [[Hc Hab]|[Hc Hab]].
  - rewrite (Z.abs_eq (b - a)), (Z.abs_eq c) in * by lia.
    destruct (Z.ltb_spec 0 c); [|lia].
    destruct (Z.ltb_spec a (b + c)); [|lia].
    replace (b + c - a + c - 1) with ((b - a) + c + c - 1) by lia.
    rewrite div_ceil_exact by lia.
    rewrite <- Z2Nat.inj_succ by (apply Z.div_pos; lia). f_equal; lia.
  - rewrite (Z.abs_neq (b - a)), (Z.abs_neq c) in * by lia.
    destruct (Z.ltb_spec 0 c); [lia|].
    destruct (Z.ltb_spec (b + c) a); [|lia].
    replace (a - (b + c) + - c - 1) with (- (b - a) + - c + - c - 1) by lia.
    rewrite div_ceil_exact by lia.
    rewrite <- Z2Nat.inj_succ by (apply Z.div_pos; lia). f_equal; lia.
Qed.

Lemma rangeLength_exclusive a b c :
  pointsTowards a b c -> Z.rem (b - a) c <> 0 ->
  rangeLength a b c = S (Z.to_nat (Z.abs (b - a) / Z.abs c)).
Proof.
  intros Hdir Hrem.
  assert (a <> b) as Hne.
  { intros ->. apply Hrem. rewrite Z.sub_diag. apply Z.rem_0_l.
    destruct Hdir; lia. }
  rewrite (rem_zero_abs a b c Hdir) in Hrem.
  unfold rangeLength. destruct Hdir as [[Hc Hab]|[Hc Hab]].
  - rewrite (Z.abs_eq (b - a)), (Z.abs_eq c) in * by lia.
    destruct (Z.ltb_spec 0 c); [|lia].
    destruct (Z.ltb_spec a b); [|lia].
    rewrite div_ceil_inexact by lia.
    rewrite <- Z2Nat.inj_succ by (apply Z.div_pos; lia). f_equal.
  - rewrite (Z.abs_neq (b - a)), (Z.abs_neq c) in * by lia.
    destruct (Z.ltb_spec 0 c); [lia|].
    destruct (Z.ltb_spec b a); [|lia].
    replace (a - b + - c - 1) with (- (b - a) + - c - 1) by lia.
    rewrite div_ceil_inexact by lia.
    rewrite <- Z2Nat.inj_succ by (apply Z.div_pos; lia). f_equal.
Qed.

(** What the two range nodes compute, selected by the remainder test, is
    the progression of the spec. *)
Lemma range_selection_progression a b c :
  pointsTowards a b c ->
  (if Z.rem (b - a) c =? 0
   then rangeElements a (b + c) c else rangeElements a b c)
  = progression a b c.
Proof.
  intros Hdir. unfold rangeElements, progression.
  destruct (Z.eqb_spec (Z.rem (b - a) c) 0) as [Hz|Hnz].
  - now rewrite rangeLength_inclusive.
  - now rewrite rangeLength_exclusive.
Qed.

(** The progression contains [end_] exactly when the remainder is zero. *)
Lemma progression_includes_end a b c :
  pointsTowards a b c ->
  (In b (progression a b c) <-> Z.rem (b - a) c = 0).
Proof.
  intros Hdir. rewrite (rem_zero_abs a b c Hdir).
  unfold progression. rewrite in_map_iff.
  assert (0 < Z.abs c) as Hc by (destruct Hdir; lia).
  pose proof (Z.div_mod (Z.abs (b - a)) (Z.abs c) ltac:(lia)) as Hd.
  pose proof (Z.mod_pos_bound (Z.abs (b - a)) (Z.abs c) Hc) as Hb.
  assert (0 <= Z.abs (b - a) / Z.abs c) as Hq
    by (apply Z.div_pos; lia).
  split.
  - intros (k & Hk & Hin). apply in_seq in Hin.
    apply Z.mod_divide; [lia|]. exists (Z.of_nat k).
    destruct Hdir as [[? ?]|[? ?]]; lia.
  - intros Hr. exists (Z.to_nat (Z.abs (b - a) / Z.abs c)). split.
    + rewrite Z2Nat.id by assumption.
      destruct Hdir as [[? ?]|[? ?]].
      * rewrite (Z.abs_eq (b - a)), (Z.abs_eq c) in * by lia. nia.
      * rewrite (Z.abs_neq (b - a)), (Z.abs_neq c) in * by lia. nia.
    + apply in_seq. lia.
Qed.

Lemma progression_head a b c : hd_error (progression a b c) = Some a.
Proof.
  unfold progression. simpl. f_equal. lia.
Qed.

Lemma progression_length a b c :
  List.length (progression a b c)
  = S (Z.to_nat (Z.abs (b - a) / Z.abs c)).
Proof. unfold progression. now rewrite length_map, length_seq. Qed.

Lemma progression_between a b c x :
  pointsTowards a b c -> In x (progression a b c) ->
  Z.min a b <= x <= Z.max a b.
Proof.
  intros Hdir Hin. unfold progression in Hin.
  apply in_map_iff in Hin as (k & <- & Hk). apply in_seq in Hk.
  assert (0 < Z.abs c) as Hc by (destruct Hdir; lia).
  pose proof (Z.div_mod (Z.abs (b - a)) (Z.abs c) ltac:(lia)) as Hd.
  pose proof (Z.mod_pos_bound (Z.abs (b - a)) (Z.abs c) Hc) as Hb.
  assert (0 <= Z.abs (b - a) / Z.abs c) as Hq by (apply Z.div_pos; lia).
  assert (Z.of_nat k <= Z.abs (b - a) / Z.abs c) as Hkq by lia.
  assert (Z.of_nat k * Z.abs c <= Z.abs (b - a)) as Hle by nia.
  destruct Hdir as [[? ?]|[? ?]].
  - rewrite (Z.abs_eq (b - a)), (Z.abs_eq c) in Hle by lia. nia.
  - rewrite (Z.abs_neq (b - a)), (Z.abs_neq c) in Hle by lia. nia.
Qed.

(* ================================================================== *)
(** * What the built nodes compute on a row *)

Arguments rangeElements : simpl never.
Arguments progression : simpl never.
Arguments Z.rem : simpl never.
Arguments Z.eqb : simpl never.
Arguments Z.leb : simpl never.
Arguments Z.add : simpl never.
Arguments Z.sub : simpl never.

Ltac value_step Hwf :=
  repeat match goal with
    | Hv : valueOf ?d ?row ?p = _ |- context [valueOf ?d ?row ?p] =>
        rewrite Hv
    | Hc : ConstAt ?d ?p _ _ |- context [valueOf ?d ?row ?p] =>
        rewrite (valueOf_const d row p _ _ Hc)
    | Hf : FunctionAt ?d ?p _ _ _ |- context [valueOf ?d ?row ?p] =>
        rewrite (valueOf_function d row p _ _ _ Hwf Hf);
        cbn [map allValues option_map]
    end.

Ltac open_built HB :=
  destruct HB as (Hts & Hte & Htst & Hone & Hsn & Hen & Htn & Hsi & Hei & Hti
                  & [Hmi Hmit] & [Hmo Hmot] & Hzero & [Heq Heqt]
                  & [Htr Htrt] & [Hpl Hplt] & [Hr1 Hr1t] & [Hr2 Hr2t]).

Ltac open_final HF :=
  unfold Final in HF;
  destruct (noneNullable _) eqn:Hnn in HF;
  [ destruct HF as [Hret Hrett]
  | destruct HF as (wrap1 & wrap2 & nullc & Hw1 & Hw2 & Hnull & Hret & Hrett) ].

Lemma integerType_cases t :
  integerType t ->
  exists (b : bool) u,
    isInteger u = true /\ t = (if b then Nullable u else u).
Proof.
  unfold integerType. destruct t; simpl; intros H; try discriminate;
    try (refine (ex_intro _ false (ex_intro _ _ (conj _ eq_refl)));
         reflexivity).
  exists true, t. split; [exact H|reflexivity].
Qed.

Ltac integer_cases H :=
  let b := fresh "b" in let u := fresh "u" in let Hu := fresh "Hu" in
  apply integerType_cases in H; destruct H as (b & u & Hu & ->);
  destruct b, u; try discriminate Hu; clear Hu.

Lemma resolve_binary_integer f a b t :
  f = "minus" \/ f = "modulo" \/ f = "plus" ->
  resolveType f [a; b] = Some t ->
  integerType a /\ integerType b.
Proof.
  unfold integerType.
  intros [-> |[-> | ->]] H; cbn in H;
    (destruct (isInteger (removeNullable a)); [|discriminate]);
    (destruct (isInteger (removeNullable b)); [|discriminate]); auto.
Qed.

(* ================================================================== *)
(** * Results that fit their type *)

Arguments wrapInteger : simpl never.

Lemma wrapInteger_inRange t z : inRange t z -> wrapInteger t z = z.
Proof.
  unfold inRange, wrapInteger, integerBounds.
  destruct (removeNullable t); cbn [isInteger fst snd]; intros H;
    try reflexivity; (rewrite Z.mod_small by lia; lia).
Qed.

(** The values of a type form an interval. *)
Lemma inRange_between t x y z :
  inRange t x -> inRange t y -> x <= z <= y \/ y <= z <= x -> inRange t z.
Proof. unfold inRange. lia. Qed.

Ltac open_ranges :=
  unfold inRange, integerBounds in *; cbn [removeNullable fst snd] in *.

(** A difference that fits 64 bits fits the result type of [minus], and
    likewise for a sum and [plus]. *)
Lemma minus_inRange ta tb t a b :
  resolveType "minus" [tb; ta] = Some t ->
  inRange ta a -> inRange tb b -> inRange Int64 (b - a) ->
  inRange t (b - a).
Proof.
  intros H Ha Hb Hd.
  destruct (resolve_binary_integer "minus" tb ta t (or_introl eq_refl) H)
    as [Ib Ia].
  integer_cases Ia; integer_cases Ib;
    vm_compute in H; injection H as <-; open_ranges; lia.
Qed.

Lemma plus_inRange ta tb t a b :
  resolveType "plus" [ta; tb] = Some t ->
  inRange ta a -> inRange tb b -> inRange Int64 (a + b) ->
  inRange t (a + b) /\ inRange t a.
Proof.
  intros H Ha Hb Hd.
  destruct (resolve_binary_integer "plus" ta tb t
              (or_intror (or_intror eq_refl)) H) as [Ia Ib].
  integer_cases Ia; integer_cases Ib;
    vm_compute in H; injection H as <-; open_ranges; lia.
Qed.

(** A remainder fits the result type of [modulo]. *)
Lemma modulo_inRange ta tb t a b :
  resolveType "modulo" [ta; tb] = Some t ->
  inRange tb b -> b <> 0 -> inRange t (Z.rem a b).
Proof.
  intros H Hb Hnz.
  pose proof (Z.rem_bound_abs a b Hnz) as Hr.
  destruct (resolve_binary_integer "modulo" ta tb t
              (or_intror (or_introl eq_refl)) H) as [Ia Ib].
  integer_cases Ia; integer_cases Ib;
    vm_compute in H; injection H as <-; open_ranges; lia.
Qed.

Lemma inRange_removeNullable t z :
  integerType t -> (inRange (removeNullable t) z <-> inRange t z).
Proof. intros H. integer_cases H; reflexivity. Qed.

Ltac integer_element H :=
  match type of H with
  | isInteger ?x = true => destruct x; try discriminate H; clear H
  end.

(** The element type of a range holds the values of its bounds' types. *)
Lemma range_inRange t1 t2 t3 rt :
  isInteger t1 = true -> isInteger t2 = true -> isInteger t3 = true ->
  resolveType "range" [t1; t2; t3] = Some rt ->
  exists x, rt = Array x /\
            (forall z, inRange t1 z -> inRange x z) /\
            (forall z, inRange t2 z -> inRange x z).
Proof.
  intros H1 H2 H3 H.
  integer_element H1; integer_element H2; integer_element H3;
    vm_compute in H; injection H as <-; eexists;
    (split; [reflexivity|]); split; intros z; open_ranges; lia.
Qed.

Lemma plus_isInteger t1 t2 t :
  isInteger t1 = true -> isInteger t2 = true ->
  resolveType "plus" [t1; t2] = Some t -> isInteger t = true.
Proof.
  intros H1 H2 H. integer_element H1; integer_element H2;
    vm_compute in H; injection H as <-; reflexivity.
Qed.

Lemma tricky_isInteger t1 t :
  isInteger t1 = true ->
  resolveType "if" [UInt8; Int32; t1] = Some t -> isInteger t = true.
Proof.
  intros H1 H. integer_element H1;
    vm_compute in H; injection H as <-; reflexivity.
Qed.

Lemma rangeElements_between a b c x :
  In x (rangeElements a b c) -> a <= x <= b \/ b <= x <= a.
Proof.
  unfold rangeElements, rangeLength. rewrite in_map_iff.
  intros (k & <- & Hk). apply in_seq in Hk.
  destruct (Z.ltb_spec 0 c) as [Hc|Hc].
  - destruct (Z.ltb_spec a b) as [Hab|Hab]; [|simpl in Hk; lia].
    left.
    pose proof (Z.mul_div_le (b - a + c - 1) c Hc) as Hq.
    assert (0 <= (b - a + c - 1) / c) as Hq0 by (apply Z.div_pos; lia).
    assert (Z.of_nat k + 1 <= (b - a + c - 1) / c) as Hk' by lia.
    nia.
  - destruct (Z.ltb_spec b a) as [Hab|Hab]; [|simpl in Hk; lia].
    right.
    destruct (Z.eq_dec c 0) as [->|Hc0].
    { rewrite Z.div_0_r in Hk. simpl in Hk. lia. }
    assert (0 < - c) as Hc' by lia.
    pose proof (Z.mul_div_le (a - b + - c - 1) (- c) Hc') as Hq.
    assert (0 <= (a - b + - c - 1) / - c) as Hq0 by (apply Z.div_pos; lia).
    assert (Z.of_nat k + 1 <= (a - b + - c - 1) / - c) as Hk' by lia.
    nia.
Qed.

(** Elements between two values of a type are stored unchanged. *)
Lemma wrap_rangeElements t a b c :
  inRange t a -> inRange t b ->
  map (wrapInteger t) (rangeElements a b c) = rangeElements a b c.
Proof.
  intros Ha Hb. rewrite <- (map_id (rangeElements a b c)) at 2.
  apply map_ext_in. intros x Hx. apply wrapInteger_inRange.
  apply (inRange_between t a b x Ha Hb).
  apply (rangeElements_between a b c x Hx).
Qed.

(** In a returning run the three inputs have integer types. *)
Lemma Built_integer_types dag s :
  Built dag s ->
  integerType (start_type s) /\ integerType (end_type s) /\
  integerType (step_type s).
Proof.
  intros HB. open_built HB.
  destruct (resolve_binary_integer "minus" _ _ _ (or_introl eq_refl) Hmit).
  destruct (resolve_binary_integer "modulo" _ _ _
              (or_intror (or_introl eq_refl)) Hmot).
  auto.
Qed.

(** On a row whose values fit the declared types of the inputs and on
    which [end - start] does not overflow 64 bits, the nodes of the
    selection condition do not wrap around. *)
Lemma Built_inRange_condition dag s a b c :
  Built dag s ->
  inRange (start_type s) a -> inRange (end_type s) b ->
  inRange (step_type s) c ->
  inRange Int64 (b - a) -> c <> 0 ->
  inRange (minus_type s) (b - a) /\
  inRange (modulo_type s) (Z.rem (b - a) c).
Proof.
  intros HB Ha Hb Hc Hd Hnz. open_built HB.
  split; [exact (minus_inRange _ _ _ a b Hmit Ha Hb Hd)|].
  exact (modulo_inRange _ _ _ (b - a) c Hmot Hc Hnz).
Qed.

(** If moreover [end + step] does not overflow 64 bits, the sum does not
    wrap around either, and the element type of the inclusive range
    holds start, end and the sum. *)
Lemma Built_inRange dag s a b c :
  Built dag s ->
  inRange (start_type s) a -> inRange (end_type s) b ->
  inRange (step_type s) c ->
  inRange Int64 (b + c) ->
  inRange (plus_type s) (b + c) /\
  inRange (arrayElement (makeNullable (range_1_type s))) a /\
  inRange (arrayElement (makeNullable (range_1_type s))) b /\
  inRange (arrayElement (makeNullable (range_1_type s))) (b + c).
Proof.
  intros HB Ha Hb Hc Hs.
  destruct (Built_integer_types dag s HB) as (Is & Ie & Ist).
  open_built HB.
  apply (inRange_removeNullable _ a Is) in Ha.
  apply (inRange_removeNullable _ b Ie) in Hb.
  apply (inRange_removeNullable _ c Ist) in Hc.
  destruct (plus_inRange _ _ _ b c Hplt Hb Hc Hs) as [Hp Hpb].
  split; [exact Hp|].
  pose proof (plus_isInteger _ _ _ Ie Ist Hplt) as Ip.
  pose proof (tricky_isInteger _ _ Ist Htrt) as Itr.
  destruct (range_inRange _ _ _ _ Is Ip Itr Hr1t) as (x & Ex & H1 & H2).
  rewrite Ex. cbn [makeNullable isNullable arrayElement removeNullable].
  auto.
Qed.

Lemma sequence_value_ints dag s node t row a b c :
  wellFormed dag -> Built dag s -> Final dag s node t ->
  valueOf dag row (start_arg s) = Some (VInt a) ->
  valueOf dag row (end_arg s) = Some (VInt b) ->
  valueOf dag row (step_arg s) = Some (VInt c) ->
  c <> 0 ->
  inRange (start_type s) a -> inRange (end_type s) b ->
  inRange (step_type s) c ->
  inRange Int64 (b - a) -> inRange Int64 (b + c) ->
  valueOf dag row node
  = Some (VArray (if Z.rem (b - a) c =? 0
                  then rangeElements a (b + c) c else rangeElements a b c)).
Proof.
  intros Hwf HB HF Ha Hb Hc Hnz Ra Rb Rc Rd Rs.
  destruct (Built_inRange_condition dag s a b c HB Ra Rb Rc Rd Hnz)
    as (Wmi & Wmo).
  destruct (Built_inRange dag s a b c HB Ra Rb Rc Rs)
    as (Wpl & Ea & Eb & Es).
  apply wrapInteger_inRange in Wmi, Wmo, Wpl.
  open_built HB. open_final HF.
  - value_step Hwf. cbn.
    rewrite !(proj2 (Z.eqb_neq c 0) Hnz). change (0 =? 0) with true. cbn.
    rewrite !(proj2 (Z.eqb_neq c 0) Hnz). cbn.
    rewrite Wmi, Wmo, Wpl.
    destruct (Z.rem (b - a) c =? 0); reflexivity.
  - value_step Hwf. cbn.
    rewrite !(proj2 (Z.eqb_neq c 0) Hnz). change (0 =? 0) with true. cbn.
    rewrite !(proj2 (Z.eqb_neq c 0) Hnz). cbn.
    rewrite Wmi, Wmo, Wpl.
    rewrite (wrap_rangeElements _ a (b + c) c Ea Es).
    rewrite (wrap_rangeElements _ a b c Ea Eb).
    destruct (Z.rem (b - a) c =? 0); reflexivity.
Qed.

Lemma defaultValue_integer t :
  isInteger t = true -> defaultValue t = VInt 0.
Proof. destruct t; simpl; intros H; (reflexivity || discriminate). Qed.

(** On the guarded branch, a NULL among the inputs makes the node NULL,
    provided the engine does not reject the step. *)
Lemma sequence_value_null dag s node t row va vb vc :
  wellFormed dag -> Built dag s -> Final dag s node t ->
  noneNullable s = false ->
  valueOf dag row (start_arg s) = Some va ->
  valueOf dag row (end_arg s) = Some vb ->
  valueOf dag row (step_arg s) = Some vc ->
  scalarValue va -> scalarValue vb -> scalarValue vc ->
  va = VNull \/ vb = VNull \/ vc = VNull ->
  vc <> VInt 0 ->
  valueOf dag row node = Some VNull.
Proof.
  intros Hwf HB HF Hpath Ha Hb Hc Sa Sb Sc Hsome Hnz.
  destruct (Built_integer_types dag s HB) as (Is & Ie & Ist).
  open_built HB. open_final HF; [congruence|].
  value_step Hwf.
  destruct va as [|a|], vb as [|b|], vc as [|c|];
    try contradiction; cbn;
    rewrite ?(defaultValue_integer _ Is), ?(defaultValue_integer _ Ie),
      ?(defaultValue_integer _ Ist); cbn;
    try (assert (c <> 0) as Hc0 by congruence;
         rewrite ?(proj2 (Z.eqb_neq c 0) Hc0));
    change (0 =? 0) with true; cbn;
    try (rewrite ?(proj2 (Z.eqb_neq c 0) Hc0); cbn);
    try reflexivity.
  destruct Hsome as [?|[?|?]]; discriminate.
Qed.

(** The step synthesized for a two-argument call evaluates to [1] when
    [start <= end] and to [-1] otherwise. *)
Lemma default_step_value dag s row a b :
  wellFormed dag -> Built dag s -> DefaultStep dag s ->
  valueOf dag row (start_arg s) = Some (VInt a) ->
  valueOf dag row (end_arg s) = Some (VInt b) ->
  valueOf dag row (step_arg s) = Some (VInt (if a <=? b then 1 else -1)).
Proof.
  intros Hwf HB (m1 & le_n & le_t & Hm1 & Hle & _ & Hif & _) Ha Hb.
  open_built HB. value_step Hwf. cbn.
  destruct (a <=? b); reflexivity.
Qed.

Lemma default_step_points a b :
  pointsTowards a b (if a <=? b then 1 else -1).
Proof.
  unfold pointsTowards. destruct (Z.leb_spec a b); lia.
Qed.

(** A returning [convertNodeTypeIfNeeded] returns the node itself or a
    cast of it to the expected type. *)
Lemma convertNodeTypeIfNeeded_inv c node dag r dag' :
  wellFormed dag ->
  convertNodeTypeIfNeeded c node dag = (inr r, dag') ->
  extends dag dag' /\ wellFormed dag' /\
  ((r = node /\ dag' = dag /\ TypeAt dag node (output_type c)) \/
   (FunctionAt dag' r "CAST" [node] (output_type c) /\
    ~ TypeAt dag node (output_type c))).
Proof.
  intros Hwf H. unfold convertNodeTypeIfNeeded, bind, ret in H.
  destruct (getNode node dag) as [[?|n] d1] eqn:E; [discriminate|].
  apply getNode_inv in E as [-> Hn].
  unfold DataType_eqb in H.
  destruct (DataType_eq_dec (output_type c) (result_type n)) as [Heq|Hne].
  - inversion H; subst. split; [apply extends_refl|]. split; [assumption|].
    left. repeat split. exists n. auto.
  - apply convertNodeType_inv in H
      as (u & Hu & Hc & Hf & He & Hw).
    split; [assumption|]. split; [auto|]. right. split; [assumption|].
    intros (m & Hm & Ht). congruence.
Qed.

(** A cast leaves an array as it is when its elements fit the element
    type of the target. *)
Lemma cast_value dag row ret node t l :
  wellFormed dag -> FunctionAt dag ret "CAST" [node] t ->
  valueOf dag row node = Some (VArray l) ->
  (forall x, In x l -> inRange (arrayElement t) x) ->
  valueOf dag row ret = Some (VArray l).
Proof.
  intros Hwf Hf Hv Hfit. value_step Hwf. cbn. do 2 f_equal.
  rewrite <- (map_id l) at 2. apply map_ext_in.
  intros x Hx. apply wrapInteger_inRange. exact (Hfit x Hx).
Qed.

(* ================================================================== *)
(** * The handler's facts survive later additions to the builder *)

Lemma Built_extends dag dag' s :
  extends dag dag' -> Built dag s -> Built dag' s.
Proof.
  intros He HB. open_built HB. unfold Built.
  repeat split;
    eauto using FunctionAt_extends, ConstAt_extends, TypeAt_extends.
Qed.

Lemma Final_extends dag dag' s node t :
  extends dag dag' -> Final dag s node t -> Final dag' s node t.
Proof.
  intros He HF. unfold Final in *. destruct (noneNullable s).
  - destruct HF. split; eauto using FunctionAt_extends.
  - destruct HF as (w1 & w2 & nc & H1 & H2 & H3 & H4 & H5).
    exists w1, w2, nc.
    repeat split; eauto using FunctionAt_extends, ConstAt_extends.
Qed.

Lemma Arguments_extends dag dag' s args :
  extends dag dag' -> Arguments dag s args -> Arguments dag' s args.
Proof.
  intros He [[-> (m1 & le_n & le_t & H1 & H2 & H3 & H4 & H5)]| ->].
  - left. split; [reflexivity|]. exists m1, le_n, le_t.
    repeat split; eauto using FunctionAt_extends, ConstAt_extends.
  - now right.
Qed.

Lemma Final_TypeAt dag s node t : Final dag s node t -> TypeAt dag node t.
Proof.
  unfold Final. destruct (noneNullable s).
  - intros [H _]. eapply FunctionAt_TypeAt; eauto.
  - intros (w1 & w2 & nc & _ & _ & _ & H & _).
    eapply FunctionAt_TypeAt; eauto.
Qed.

Import FunctionParserSequence.

(** Anatomy of a returning [parse]: the nodes of [parseNode_inv], and the
    returned node is [node] itself or its cast to the expected type. *)
Lemma parse_inv c dag r dag' :
  wellFormed dag -> parse c dag = (inr r, dag') ->
  exists parsed_args dag0 s t node,
    parseFunctionArguments c dag = (inr parsed_args, dag0) /\
    Forall (LeafAt dag') parsed_args /\
    Arguments dag' s parsed_args /\ Built dag' s /\ Final dag' s node t /\
    extends dag dag' /\ wellFormed dag' /\
    (r = node \/ FunctionAt dag' r "CAST" [node] (output_type c)).
Proof.
  intros Hwf H. unfold parse, bind in H.
  destruct (parseNode c dag) as [[?|node] d1] eqn:E; [discriminate|].
  destruct (parseNode_inv c Hwf E)
    as (args & dag0 & s & t & Ea & Hl & Harg & HB & HF & He & Hw).
  destruct (convertNodeTypeIfNeeded_inv c node d1 r dag' Hw H)
    as (He' & Hw' & Hr).
  exists args, dag0, s, t, node.
  split; [exact Ea|].
  split; [eapply Forall_impl; [|exact Hl]; intros p;
          apply LeafAt_extends; exact He'|].
  split; [eauto using Arguments_extends|].
  split; [eauto using Built_extends|].
  split; [eauto using Final_extends|].
  split; [eauto using extends_trans|].
  split; [assumption|].
  destruct Hr as [(-> & _ & _)|[Hf _]]; auto.
Qed.

(* ================================================================== *)
(** * The subtree below the handler's result *)

Lemma treeOf_function k dag p f args t :
  FunctionAt dag p f args t ->
  treeOf (S k) dag p = TFun f (map (treeOf k dag) args).
Proof. intros [nm H]. simpl. now rewrite H. Qed.

Lemma treeOf_const k dag p t v :
  ConstAt dag p t v -> treeOf (S k) dag p = TConst t v.
Proof. intros [nm H]. simpl. now rewrite H. Qed.

Lemma treeOf_leaf k dag p :
  LeafAt dag p -> treeOf (S k) dag p = leafTree dag p.
Proof.
  intros (n & H & Hn). unfold leafTree. simpl. rewrite H.
  destruct (type n) as [| |f]; try reflexivity. now destruct (Hn f).
Qed.

Lemma leafTree_no_function dag p f :
  LeafAt dag p -> countFunction f (leafTree dag p) = 0%nat.
Proof.
  intros (n & H & Hn). unfold leafTree. simpl. rewrite H.
  destruct (type n) as [| |g]; try reflexivity. now destruct (Hn g).
Qed.

Ltac tree_step :=
  repeat match goal with
    | H : LeafAt ?d ?p |- context [treeOf (S ?k) ?d ?p] =>
        rewrite (treeOf_leaf k d p H)
    | H : ConstAt ?d ?p _ _ |- context [treeOf (S ?k) ?d ?p] =>
        rewrite (treeOf_const k d p _ _ H)
    | H : FunctionAt ?d ?p _ _ _ |- context [treeOf (S ?k) ?d ?p] =>
        rewrite (treeOf_function k d p _ _ _ H); cbn [map]
    end.

(** Shape of the subtree rooted at the node handed to the output
    coercion, at any unfolding depth from 8 on. *)
Lemma result_tree k dag s args node t :
  Built dag s -> Final dag s node t -> Arguments dag s args ->
  Forall (LeafAt dag) args ->
  let start := leafTree dag (start_arg s) in
  let end_ := leafTree dag (end_arg s) in
  let step := stepTree dag s args in
  treeOf (8 + k) dag node
  = if noneNullable s then plainResultTree start end_ step
    else guardedResultTree (makeNullable (range_1_type s)) start end_ step.
Proof.
  intros HB HF HA HL. open_built HB. open_final HF;
    destruct HA as [[-> (m1 & le_n & le_t & Hm1 & Hle & _ & Hif & _)]| ->];
    repeat match goal with
      | H : Forall _ (_ :: _) |- _ =>
          let Hx := fresh "Hleaf" in
          apply Forall_cons_iff in H as [Hx H]
      end;
    cbn [stepTree Nat.add]; rewrite Hnn; tree_step; reflexivity.
Qed.

(* ================================================================== *)
(** * Nullability of result types *)

Lemma isNullable_makeNullable t : isNullable (makeNullable t) = true.
Proof. unfold makeNullable. destruct (isNullable t) eqn:E; auto. Qed.

Lemma removeNullable_plain t : isNullable t = false -> removeNullable t = t.
Proof. destruct t; simpl; auto; discriminate. Qed.

Lemma wrapNullable_nullable b t :
  isNullable (wrapNullable b t) = b || isNullable t.
Proof.
  destruct b; simpl; [apply isNullable_makeNullable|reflexivity].
Qed.

Lemma baseSupertype_plain x y t :
  isNullable x = false -> isNullable y = false ->
  baseSupertype x y = Some t -> isNullable t = false.
Proof.
  destruct x, y; simpl; intros Hx Hy H; try discriminate;
    repeat match type of H with
      | (if ?b then _ else _) = _ => destruct b
      | option_map _ ?o = _ => destruct o; simpl in H
      end;
    try discriminate; injection H as <-; reflexivity.
Qed.

Lemma leastSupertype_nullable a b t :
  leastSupertype a b = Some t ->
  isNullable t = isNullable a || isNullable b.
Proof.
  unfold leastSupertype.
  destruct (baseSupertype (removeNullable a) (removeNullable b)) as [u|] eqn:E;
    [|discriminate].
  intros H. injection H as <-.
  destruct (isNullable a) eqn:Ha; simpl.
  - apply isNullable_makeNullable.
  - destruct (isNullable b) eqn:Hb; [apply isNullable_makeNullable|].
    rewrite (removeNullable_plain a Ha), (removeNullable_plain b Hb) in E.
    exact (baseSupertype_plain a b u Ha Hb E).
Qed.

Lemma superTypes_fold_nullable rest a t :
  fold_left
    (fun acc u =>
       match acc with Some x => leastSupertype x u | None => None end)
    rest (Some a) = Some t ->
  isNullable t = isNullable a || existsb isNullable rest.
Proof.
  revert a. induction rest as [|u rest IH]; intros a H; simpl in *.
  - injection H as <-. now rewrite orb_false_r.
  - destruct (leastSupertype a u) as [x|] eqn:E.
    + rewrite (IH _ H), (leastSupertype_nullable a u x E).
      now rewrite orb_assoc.
    + exfalso. clear -H. induction rest; simpl in H; [discriminate|auto].
Qed.

Lemma superTypes_nullable ts t :
  superTypes ts = Some t -> isNullable t = existsb isNullable ts.
Proof.
  destruct ts as [|a rest]; simpl; [discriminate|].
  apply superTypes_fold_nullable.
Qed.

Lemma signedOfBits_plain n : isNullable (signedOfBits n) = false.
Proof.
  unfold signedOfBits.
  repeat match goal with |- context [if ?b then _ else _] => destruct b end;
    reflexivity.
Qed.

(** Apart from the multi-way conditional, which is treated on its own, a
    function of non-nullable arguments has a non-nullable result. *)
Lemma resolveType_plain f ts t :
  f <> "multiIf" ->
  resolveType f ts = Some t -> anyNullable ts = false ->
  isNullable t = false.
Proof.
  intros Hf H Hn. unfold resolveType in H.
  destruct (String.eqb_spec f "multiIf") as [|_]; [contradiction|].
  repeat match type of H with
    | (if ?b then _ else _) = _ => destruct b
    end;
    try discriminate;
    destruct ts as [|a [|b [|c [|d ts]]]]; simpl in H; try discriminate;
    unfold anyNullable in *; simpl in Hn;
    repeat match type of H with
      | (if ?b then _ else _) = _ => destruct b
      | option_map _ ?o = _ => destruct o as [u|] eqn:E; simpl in H
      end;
    try discriminate; injection H as <-;
    rewrite ?wrapNullable_nullable, ?Hn; simpl in *;
    repeat match goal with
      | H : _ || _ = false |- _ => apply orb_false_elim in H as [? ?]
      end;
    try reflexivity.
  - rewrite removeNullable_plain by assumption. assumption.
  - apply signedOfBits_plain.
  - apply signedOfBits_plain.
  - apply leastSupertype_nullable in E. rewrite E.
    repeat match goal with H : isNullable _ = false |- _ => rewrite H end.
    reflexivity.
Qed.
(** The result type of the node handed to the output coercion is
    nullable exactly on the guarded branch. *)
Lemma result_type_nullable dag s node t :
  Built dag s -> Final dag s node t ->
  isNullable t = negb (noneNullable s).
Proof.
  intros HB HF. open_built HB. open_final HF; rewrite Hnn; simpl.
  - unfold noneNullable in Hnn.
    apply andb_prop in Hnn as [Hnn Hst]. apply andb_prop in Hnn as [Hs He].
    apply negb_true_iff in Hs, He, Hst.
    rewrite (removeNullable_plain _ Hs) in *.
    rewrite (removeNullable_plain _ He) in *.
    rewrite (removeNullable_plain _ Hst) in *.
    assert (forall f ts u, f <> "multiIf" -> resolveType f ts = Some u ->
                           forallb (fun x => negb (isNullable x)) ts = true ->
                           isNullable u = false) as Hplain.
    { intros f ts u Hf Hr Hall. apply (resolveType_plain f ts u Hf Hr).
      unfold anyNullable. clear -Hall.
      induction ts as [|x ts IH]; simpl in *; [reflexivity|].
      apply andb_prop in Hall as [Hx Hall]. apply negb_true_iff in Hx.
      now rewrite Hx, IH. }
    assert (isNullable (minus_type s) = false) as Pmi
      by (eapply Hplain; [|exact Hmit|simpl; rewrite He, Hs; reflexivity];
          discriminate).
    assert (isNullable (modulo_type s) = false) as Pmo
      by (eapply Hplain; [|exact Hmot|simpl; rewrite Pmi, Hst; reflexivity];
          discriminate).
    assert (isNullable (equals_type s) = false) as Peq
      by (eapply Hplain; [|exact Heqt|simpl; rewrite Pmo; reflexivity];
          discriminate).
    assert (isNullable (tricky_type s) = false) as Ptr
      by (eapply Hplain; [|exact Htrt|simpl; rewrite Hst; reflexivity];
          discriminate).
    assert (isNullable (plus_type s) = false) as Ppl
      by (eapply Hplain; [|exact Hplt|simpl; rewrite He, Hst; reflexivity];
          discriminate).
    assert (isNullable (range_1_type s) = false) as Pr1
      by (eapply Hplain; [|exact Hr1t|simpl; rewrite Hs, Ppl, Ptr; reflexivity];
          discriminate).
    assert (isNullable (range_2_type s) = false) as Pr2
      by (eapply Hplain; [|exact Hr2t|simpl; rewrite Hs, He, Ptr; reflexivity];
          discriminate).
    eapply Hplain; [|exact Hrett|simpl; rewrite Peq, Pr1, Pr2; reflexivity].
    discriminate.
  - cbn -[superTypes] in Hrett.
    destruct (isInteger (removeNullable (equals_type s)) && true);
      [|discriminate].
    destruct (superTypes _) as [u|] eqn:E in Hrett; [|discriminate].
    simpl in Hrett. injection Hrett as <-.
    apply superTypes_nullable in E. simpl in E.
    rewrite isNullable_makeNullable in E. simpl in E.
    rewrite wrapNullable_nullable, E. apply orb_true_r.
Qed.

Ltac split_leaves :=
  repeat match goal with
    | H : Forall _ (_ :: _) |- _ =>
        let Hx := fresh "Hleaf" in
        apply Forall_cons_iff in H as [Hx H]
    end.

(** The subtrees of the step, of the selection condition and of the two
    range nodes. *)
Lemma parts_tree k dag s args :
  Built dag s -> Arguments dag s args -> Forall (LeafAt dag) args ->
  let start := leafTree dag (start_arg s) in
  let end_ := leafTree dag (end_arg s) in
  let step := stepTree dag s args in
  treeOf (3 + k) dag (step_arg s) = step /\
  treeOf (5 + k) dag (modulo_step_eq_zero_node s)
  = inclusiveTree start end_ step /\
  treeOf (6 + k) dag (range_1_node s) = rangeInclTree start end_ step /\
  treeOf (6 + k) dag (range_2_node s) = rangeExclTree start end_ step.
Proof.
  intros HB HA HL. open_built HB.
  destruct HA as [[-> (m1 & le_n & le_t & Hm1 & Hle & _ & Hif & _)]| ->];
    split_leaves; cbn [stepTree Nat.add];
    repeat split; tree_step; reflexivity.
Qed.

Lemma stepTree_counts dag s args f :
  Built dag s -> Arguments dag s args -> Forall (LeafAt dag) args ->
  f <> "if" -> f <> "lessOrEquals" ->
  countFunction f (stepTree dag s args) = 0%nat.
Proof.
  intros HB HA HL Hif Hle.
  destruct HA as [[-> _]| ->]; split_leaves; cbn [stepTree].
  - unfold defaultStepTree. cbn [countFunction map list_sum].
    rewrite !leafTree_no_function by assumption.
    apply String.eqb_neq in Hif, Hle. now rewrite Hif, Hle.
  - now apply leafTree_no_function.
Qed.

(* ================================================================== *)
(** * Arity errors (C5) *)

Lemma parseExpressions_selections es dag :
  (forall e, In e es -> exists field, e = Selection field) ->
  snd (parseExpressions es dag) = dag.
Proof.
  induction es as [|e es IH]; intros Hsel; simpl; [reflexivity|].
  destruct (Hsel e (or_introl eq_refl)) as [field ->].
  unfold bind. simpl.
  destruct (nth_error (getInputs dag) field); [|reflexivity].
  specialize (IH (fun x Hx => Hsel x (or_intror Hx))).
  destruct (parseExpressions es dag) as [[?|?] d]; simpl in *; congruence.
Qed.

(** A literal argument is translated before the arity is checked:
    [sequence(1)] fails with the arity error and leaves a constant node in
    a builder that was empty. *)
Lemma wrong_arity_leaves_argument_nodes :
  exists dag',
    parse (sequenceCall [int32 1] (Array Int32)) []
    = (inl (NUMBER_OF_ARGUMENTS_DOESNT_MATCH "sequence"), dag')
    /\ dag' <> [].
Proof. eexists. split; [vm_compute; reflexivity|discriminate]. Qed.

(** C5 (amended).  A call with an argument count other than 2 or 3 never
    returns a node.  Once its arguments are translated it fails with the
    arity error naming [sequence], and the builder is then exactly what
    the translation of the arguments left: the handler adds no node of its
    own, and nothing at all when every argument is an input column. *)
Theorem parse_wrong_arity c dag :
  List.length (arguments c) <> 2%nat ->
  List.length (arguments c) <> 3%nat ->
  (forall parsed_args dag0,
      parseFunctionArguments c dag = (inr parsed_args, dag0) ->
      parse c dag = (inl (NUMBER_OF_ARGUMENTS_DOESNT_MATCH getName), dag0)) /\
  (forall e dag0,
      parseFunctionArguments c dag = (inl e, dag0) ->
      parse c dag = (inl e, dag0)) /\
  ((forall e, In e (arguments c) -> exists field, e = Selection field) ->
   snd (parse c dag) = dag).
Proof.
  intros H2 H3.
  assert (forall parsed_args dag0,
             parseFunctionArguments c dag = (inr parsed_args, dag0) ->
             parse c dag
             = (inl (NUMBER_OF_ARGUMENTS_DOESNT_MATCH getName), dag0)) as Hok.
  { intros ps dag0 E. unfold parse, parseNode, bind. rewrite E.
    apply parseExpressions_inv in E as (_ & _ & Hlen & _).
    destruct ((List.length ps <? 2)%nat || (3 <? List.length ps)%nat) eqn:Ha;
      [reflexivity|].
    apply orb_false_elim in Ha as [Hlo Hhi].
    apply Nat.ltb_ge in Hlo, Hhi. lia. }
  assert (forall e dag0,
             parseFunctionArguments c dag = (inl e, dag0) ->
             parse c dag = (inl e, dag0)) as Herr.
  { intros e dag0 E. unfold parse, parseNode, bind. now rewrite E. }
  split; [exact Hok|]. split; [exact Herr|].
  intros Hsel. pose proof (parseExpressions_selections _ dag Hsel) as Hs.
  unfold parseFunctionArguments in *.
  destruct (parseExpressions (arguments c) dag) as [[e|ps] d] eqn:E;
    simpl in Hs; subst d.
  - now rewrite (Herr _ _ eq_refl).
  - now rewrite (Hok _ _ eq_refl).
Qed.

Lemma parse_wrong_arity_witness :
  parse (sequenceCall [Selection 0] (Array Int32))
        [mkNode INPUT [] Int32 "a"]
  = (inl (NUMBER_OF_ARGUMENTS_DOESNT_MATCH "sequence"),
     [mkNode INPUT [] Int32 "a"]).
Proof.
  refine (proj1 (parse_wrong_arity
                   (sequenceCall [Selection 0] (Array Int32))
                   [mkNode INPUT [] Int32 "a"] _ _) [0%nat] _ _).
  - simpl; lia.
  - simpl; lia.
  - reflexivity.
Defined.

(* ================================================================== *)
(** * Result type (C3) and default step (C4) *)

Lemma wellFormed_nil : wellFormed [].
Proof. intros p n H. destruct p; discriminate. Qed.

(** The value of the returned node on a row of integers that fit their
    types, whose step points from start to end and on which nothing
    overflows. *)
Lemma returned_value_ints dag s node t r u row a b c :
  wellFormed dag -> Built dag s -> Final dag s node t ->
  r = node \/ FunctionAt dag r "CAST" [node] u ->
  valueOf dag row (start_arg s) = Some (VInt a) ->
  valueOf dag row (end_arg s) = Some (VInt b) ->
  valueOf dag row (step_arg s) = Some (VInt c) ->
  pointsTowards a b c ->
  inRange (start_type s) a -> inRange (end_type s) b ->
  inRange (step_type s) c ->
  inRange (arrayElement u) a -> inRange (arrayElement u) b ->
  inRange Int64 (b - a) -> inRange Int64 (b + c) ->
  valueOf dag row r = Some (VArray (progression a b c)).
Proof.
  intros Hwf HB HF Hr Ha Hb Hc Hdir Ra Rb Rc Oa Ob Rd Rs.
  assert (c <> 0) as Hnz by (destruct Hdir; lia).
  pose proof (sequence_value_ints dag s node t row a b c Hwf HB HF Ha Hb Hc
                Hnz Ra Rb Rc Rd Rs) as Hv.
  rewrite (range_selection_progression a b c Hdir) in Hv.
  destruct Hr as [->|Hcast]; [exact Hv|].
  apply (cast_value dag row r node u _ Hwf Hcast Hv).
  intros x Hx. apply (inRange_between _ a b x Oa Ob).
  pose proof (progression_between a b c x Hdir Hx). lia.
Qed.

(** C3.  The result type of the node built by [parse], before the output
    coercion, is nullable if and only if the declared type of start, of
    end or of the step (the synthesized one for a two-argument call) is
    nullable.  Only the types recorded in the builder enter; no row
    does. *)
Theorem result_nullable_iff_argument_nullable c dag r dag' :
  wellFormed dag -> parse c dag = (inr r, dag') ->
  exists parsed_args dag0 s node t,
    parseFunctionArguments c dag = (inr parsed_args, dag0) /\
    Arguments dag' s parsed_args /\
    TypeAt dag' (start_arg s) (start_type s) /\
    TypeAt dag' (end_arg s) (end_type s) /\
    TypeAt dag' (step_arg s) (step_type s) /\
    (r = node \/ FunctionAt dag' r "CAST" [node] (output_type c)) /\
    TypeAt dag' node t /\
    (isNullable t = true <->
     isNullable (start_type s) = true \/ isNullable (end_type s) = true \/
     isNullable (step_type s) = true).
Proof.
  intros Hwf H.
  destruct (parse_inv c dag r dag' Hwf H)
    as (args & dag0 & s & t & node & Ea & Hl & HA & HB & HF & He & Hw & Hr).
  exists args, dag0, s, node, t.
  pose proof (result_type_nullable dag' s node t HB HF) as Hn.
  pose proof (Final_TypeAt dag' s node t HF) as Ht.
  pose proof HB as HB'. open_built HB'.
  repeat (split; [assumption|]).
  rewrite Hn. unfold noneNullable.
  destruct (isNullable (start_type s)), (isNullable (end_type s)),
    (isNullable (step_type s)); simpl; intuition discriminate.
Qed.

Lemma result_nullable_iff_argument_nullable_witness :
  exists r dag',
    parse (sequenceCall [nullableInt32 (FInt 1); int32 7]
             (Nullable (Array Int64))) [] = (inr r, dag') /\
    exists parsed_args dag0 s node t,
      parseFunctionArguments
        (sequenceCall [nullableInt32 (FInt 1); int32 7]
           (Nullable (Array Int64))) [] = (inr parsed_args, dag0) /\
      Arguments dag' s parsed_args /\
      TypeAt dag' (start_arg s) (start_type s) /\
      TypeAt dag' (end_arg s) (end_type s) /\
      TypeAt dag' (step_arg s) (step_type s) /\
      (r = node \/
       FunctionAt dag' r "CAST" [node] (Nullable (Array Int64))) /\
      TypeAt dag' node t /\
      (isNullable t = true <->
       isNullable (start_type s) = true \/ isNullable (end_type s) = true \/
       isNullable (step_type s) = true).
Proof.
  eexists. eexists. split; [vm_compute; reflexivity|].
  apply (result_nullable_iff_argument_nullable
           (sequenceCall [nullableInt32 (FInt 1); int32 7]
              (Nullable (Array Int64))) []).
  - exact wellFormed_nil.
  - vm_compute; reflexivity.
Defined.

Lemma parsed_length c dag parsed_args dag0 :
  parseFunctionArguments c dag = (inr parsed_args, dag0) ->
  List.length parsed_args = List.length (arguments c).
Proof.
  intros E. apply parseExpressions_inv in E as (_ & _ & Hlen & _). exact Hlen.
Qed.

(** C4.  For a two-argument call the step is the data-flow subtree
    [if(lessOrEquals(start, end), 1, -1)], built whatever the arguments
    are, and it is the step every later node uses: the comparison is a
    node of the result, not a decision of [parse].  On a row of integers
    the step evaluates to [1] when [start <= end] and to [-1] otherwise,
    a non-zero step that points from start to end.  In particular
    [sequence(5, 1)] yields [5,4,3,2,1]. *)
Theorem default_step_is_dataflow_conditional :
  (forall c dag r dag' x y,
      wellFormed dag -> arguments c = [x; y] ->
      parse c dag = (inr r, dag') ->
      exists dag0 s node t,
        parseFunctionArguments c dag
        = (inr [start_arg s; end_arg s], dag0) /\
        Built dag' s /\ Final dag' s node t /\
        (r = node \/ FunctionAt dag' r "CAST" [node] (output_type c)) /\
        let start := leafTree dag' (start_arg s) in
        let end_ := leafTree dag' (end_arg s) in
        (forall k,
            treeOf (3 + k) dag' (step_arg s) = defaultStepTree start end_) /\
        (forall k,
            treeOf (8 + k) dag' node
            = if noneNullable s
              then plainResultTree start end_ (defaultStepTree start end_)
              else guardedResultTree (makeNullable (range_1_type s))
                     start end_ (defaultStepTree start end_)) /\
        (forall row a b,
            valueOf dag' row (start_arg s) = Some (VInt a) ->
            valueOf dag' row (end_arg s) = Some (VInt b) ->
            valueOf dag' row (step_arg s)
            = Some (VInt (if a <=? b then 1 else -1)) /\
            pointsTowards a b (if a <=? b then 1 else -1)))
  /\ runOnLiterals (sequenceCall [int32 5; int32 1] (Array Int64))
     = inr (Some (VArray [5; 4; 3; 2; 1])).
Proof.
  split; [|vm_compute; reflexivity].
  intros c dag r dag' x y Hwf Hargs H.
  destruct (parse_inv c dag r dag' Hwf H)
    as (args & dag0 & s & t & node & Ea & Hl & HA & HB & HF & He & Hw & Hr).
  pose proof (parsed_length c dag args dag0 Ea) as Hlen.
  rewrite Hargs in Hlen. simpl in Hlen.
  destruct HA as [[-> HD]| ->]; [|discriminate].
  exists dag0, s, node, t.
  assert (Arguments dag' s [start_arg s; end_arg s]) as HA
    by (left; split; [reflexivity|exact HD]).
  split; [exact Ea|]. split; [exact HB|]. split; [exact HF|].
  split; [exact Hr|]. cbv zeta.
  split; [intros k; apply (parts_tree k dag' s _ HB HA Hl)|].
  split; [intros k; apply (result_tree k dag' s _ node t HB HF HA Hl)|].
  intros row a b Ha Hb.
  split; [exact (default_step_value dag' s row a b Hw HB HD Ha Hb)|].
  apply default_step_points.
Qed.

Lemma default_step_is_dataflow_conditional_witness :
  exists r dag',
    parse (sequenceCall [int32 2; int32 4] (Array Int64)) [] = (inr r, dag') /\
    exists dag0 s node t,
      parseFunctionArguments (sequenceCall [int32 2; int32 4] (Array Int64)) []
      = (inr [start_arg s; end_arg s], dag0) /\
      Built dag' s /\ Final dag' s node t.
Proof.
  destruct (parse (sequenceCall [int32 2; int32 4] (Array Int64)) [])
    as [[e|r] dag'] eqn:E; [vm_compute in E; discriminate E|].
  exists r, dag'. split; [reflexivity|].
  destruct (proj1 default_step_is_dataflow_conditional
              (sequenceCall [int32 2; int32 4] (Array Int64)) []
              r dag' (int32 2) (int32 4) wellFormed_nil eq_refl E)
    as (dag0 & s & node & t & Ea & HB & HF & _).
  exists dag0, s, node, t. split; [exact Ea|]. split; [exact HB|exact HF].
Defined.

(* ================================================================== *)
(** * The handler returns on integer arguments *)

Lemma resolve_arithmetic f a b :
  f = "minus" \/ f = "plus" \/ f = "modulo" \/ f = "equals"
  \/ f = "lessOrEquals" ->
  integerType a -> integerType b ->
  exists t, resolveType f [a; b] = Some t /\ integerType t.
Proof.
  intros Hf Ha Hb. integer_cases Ha; integer_cases Hb;
    destruct Hf as [->|[->|[->|[->| ->]]]];
    eexists; (split; [vm_compute; reflexivity|reflexivity]).
Qed.

Lemma resolve_if_integer c a b :
  integerType c -> integerType a -> integerType b ->
  exists t, resolveType "if" [c; a; b] = Some t /\ integerType t.
Proof.
  intros Hc Ha Hb. integer_cases Hc; integer_cases Ha; integer_cases Hb;
    eexists; (split; [vm_compute; reflexivity|reflexivity]).
Qed.

Lemma integerType_removeNullable t :
  integerType t -> integerType (removeNullable t).
Proof. intros H. integer_cases H; reflexivity. Qed.

Lemma resolve_range a b c :
  integerType a -> integerType b -> integerType c ->
  isNullable a = false -> isNullable b = false -> isNullable c = false ->
  exists x, resolveType "range" [a; b; c] = Some (Array x) /\
            isInteger x = true.
Proof.
  intros Ha Hb Hc Na Nb Nc.
  integer_cases Ha; try discriminate Na;
    integer_cases Hb; try discriminate Nb;
    integer_cases Hc; try discriminate Nc;
    eexists; (split; [vm_compute; reflexivity|reflexivity]).
Qed.

Lemma resolve_if_arrays c x y :
  integerType c -> isInteger x = true -> isInteger y = true ->
  exists t, resolveType "if" [c; Array x; Array y] = Some t /\
            integerArrayType t.
Proof.
  intros Hc Hx Hy. integer_cases Hc; integer_element Hx; integer_element Hy;
    eexists; (split; [vm_compute; reflexivity|]);
    eexists; (split; reflexivity).
Qed.

Lemma resolve_multiIf_arrays c x :
  integerType c -> isInteger x = true ->
  let t := Nullable (Array x) in
  exists u, resolveType "multiIf" [UInt8; t; UInt8; t; UInt8; t; c; t; t]
            = Some u /\ integerArrayType u.
Proof.
  intros Hc Hx. integer_cases Hc; integer_element Hx;
    eexists; (split; [vm_compute; reflexivity|]);
    eexists; (split; reflexivity).
Qed.

Lemma castable_integer_arrays t u :
  integerArrayType t -> integerArrayType u -> castable t u = true.
Proof.
  intros (x & Hx & Ix) (y & Hy & Iy). unfold castable. rewrite Hx, Hy.
  integer_element Ix; integer_element Iy; reflexivity.
Qed.

Lemma integerArrayType_array x :
  isInteger x = true -> integerArrayType (Array x).
Proof. intros H. exists x. split; [reflexivity|exact H]. Qed.

Lemma integerArrayType_nullable x :
  isInteger x = true -> integerArrayType (Nullable (Array x)).
Proof. intros H. exists x. split; [reflexivity|exact H]. Qed.

(** [toFunctionNode] returns the requested node whenever the arguments
    exist and the function accepts their types. *)
Lemma toFunctionNode_returns f args ts t dag :
  wellFormed dag -> Forall2 (TypeAt dag) args ts ->
  resolveType f ts = Some t ->
  exists p dag',
    toFunctionNode f args dag = (inr p, dag') /\
    FunctionAt dag' p f args t /\ extends dag dag' /\ wellFormed dag'.
Proof.
  intros Hwf Hts Ht.
  destruct (toFunctionNode_total f Hts Ht) as (p & dag' & E).
  exists p, dag'. split; [exact E|].
  destruct (toFunctionNode_inv _ _ _ E)
    as (ts' & t' & Hts' & Ht' & Hf & He & Hw).
  assert (ts' = ts) as ->.
  { clear -Hts Hts'. revert ts' Hts'.
    induction Hts as [|a u args ts Ha _ IH]; intros ts' H'; inversion H';
      subst; [reflexivity|].
    f_equal; [eapply TypeAt_fun; eauto|auto]. }
  assert (t' = t) as -> by congruence.
  auto.
Qed.

(** [convertNodeType] returns a cast whenever the conversion is accepted. *)
Lemma convertNodeType_returns node target nm t dag :
  wellFormed dag -> TypeAt dag node t -> castable t target = true ->
  exists p dag',
    convertNodeType node target nm dag = (inr p, dag') /\
    FunctionAt dag' p "CAST" [node] target /\ extends dag dag' /\
    wellFormed dag'.
Proof.
  intros Hwf (n & Hn & <-) Hc. unfold convertNodeType, bind, getNode.
  rewrite Hn, Hc.
  match goal with |- context [addNode ?m dag] =>
    destruct (addNode_spec m dag) as (p & dag' & E & He & Hp & Hw) end.
  exists p, dag'. rewrite E. split; [reflexivity|].
  split; [eexists; exact Hp|]. split; [exact He|].
  apply Hw; [exact Hwf|]. simpl. constructor; [|constructor].
  apply nth_error_Some. congruence.
Qed.

Ltac solve_types :=
  repeat (apply Forall2_cons;
          [first [eassumption
                 | eapply FunctionAt_TypeAt; eassumption
                 | eapply ConstAt_TypeAt; eassumption]|]);
  apply Forall2_nil.

(** One returning [toFunctionNode] statement in the goal. *)
Tactic Notation "returns_step" hyp(Hwf) constr(f) constr(args) constr(ts)
    constr(t) constr(Hres) ident(p) ident(Hf) :=
  match goal with
  | |- context [toFunctionNode f args ?d] =>
      let d1 := fresh "d" in let E := fresh "E" in
      let He := fresh "He" in let Hw := fresh "Hw" in
      destruct (toFunctionNode_returns f args ts t d Hwf
                  ltac:(solve_types) Hres)
        as (p & d1 & E & Hf & He & Hw);
      rewrite E; cbv beta iota; lift_facts He;
      clear Hwf E He; rename Hw into Hwf
  end.

(** One [addColumnToActionsDAG] statement in the goal. *)
Tactic Notation "returns_column" hyp(Hwf) ident(p) ident(Hc) :=
  match goal with
  | |- context [addColumnToActionsDAG ?t ?v ?d] =>
      let d1 := fresh "d" in let E := fresh "E" in
      let He := fresh "He" in let Hw := fresh "Hw" in
      destruct (addColumnToActionsDAG_spec t v d)
        as (p & d1 & E & He & Hc & Hw);
      rewrite E; cbv beta iota; lift_facts He;
      specialize (Hw Hwf); clear Hwf E He; rename Hw into Hwf
  end.

(** One dereference in the goal of a node whose type is known. *)
Ltac returns_node H :=
  let n := fresh "n" in let Hn := fresh "Hn" in let Ht := fresh "Ht" in
  let H' := fresh in
  pose proof H as H';
  first [ apply FunctionAt_TypeAt in H' | apply ConstAt_TypeAt in H' | idtac ];
  destruct H' as (n & Hn & Ht);
  match goal with
  | |- context [getNode ?p ?d] =>
      unfold getNode at 1; rewrite Hn; cbv beta iota; rewrite ?Ht; clear Hn
  end.

Lemma integerType_plain t :
  integerType t -> isNullable (removeNullable t) = false.
Proof. intros H. integer_cases H; reflexivity. Qed.

(** One returning [convertNodeType] statement in the goal. *)
Tactic Notation "returns_convert" hyp(Hwf) constr(t) constr(Htype)
    constr(Hcast) ident(p) ident(Hf) :=
  match goal with
  | |- context [convertNodeType ?q ?target ?nm ?d] =>
      let d1 := fresh "d" in let E := fresh "E" in
      let He := fresh "He" in let Hw := fresh "Hw" in
      destruct (convertNodeType_returns q target nm t d Hwf Htype Hcast)
        as (p & d1 & E & Hf & He & Hw);
      rewrite E; cbv beta iota; lift_facts He;
      clear Hwf E He; rename Hw into Hwf
  end.

(** Lines 83-133 in the goal, common to both arities. *)
Tactic Notation "returns_body" hyp(Hwf) hyp(Hta) hyp(Htb) hyp(Htst)
    hyp(Ia) hyp(Ib) hyp(Ist) constr(a) constr(b) constr(st)
    constr(ta) constr(tb) constr(tst) constr(one_n) :=
  let x1 := fresh "x1" in
  let R1 := fresh "R1" in
  let I1 := fresh "I1" in
  let x2 := fresh "x2" in
  let R2 := fresh "R2" in
  let I2 := fresh "I2" in
  let range1_n := fresh "range1_n" in
  let Hr1 := fresh "Hr1" in
  let range2_n := fresh "range2_n" in
  let Hr2 := fresh "Hr2" in
  let Ptr := fresh "Ptr" in
  let Ppl := fresh "Ppl" in
  let tres := fresh "tres" in
  let Rres := fresh "Rres" in
  let Ires := fresh "Ires" in
  let ret_n := fresh "ret_n" in
  let Hret := fresh "Hret" in
  let wrap1 := fresh "wrap1" in
  let Hw1 := fresh "Hw1" in
  let wrap2 := fresh "wrap2" in
  let Hw2 := fresh "Hw2" in
  let null_n := fresh "null_n" in
  let Hnull := fresh "Hnull" in
  let start_nn := fresh "start_nn" in
  let Hsn := fresh "Hsn" in
  let end_nn := fresh "end_nn" in
  let Hen := fresh "Hen" in
  let step_nn := fresh "step_nn" in
  let Htn := fresh "Htn" in
  let start_isnull := fresh "start_isnull" in
  let Hsi := fresh "Hsi" in
  let end_isnull := fresh "end_isnull" in
  let Hei := fresh "Hei" in
  let step_isnull := fresh "step_isnull" in
  let Hti := fresh "Hti" in
  let minus_n := fresh "minus_n" in
  let Hmi := fresh "Hmi" in
  let modulo_n := fresh "modulo_n" in
  let Hmo := fresh "Hmo" in
  let zero_n := fresh "zero_n" in
  let Hzero := fresh "Hzero" in
  let eq0_n := fresh "eq0_n" in
  let Heq := fresh "Heq" in
  let tricky_n := fresh "tricky_n" in
  let Htr := fresh "Htr" in
  let plus_n := fresh "plus_n" in
  let Hpl := fresh "Hpl" in
  returns_node Hta; returns_node Htb; returns_node Htst;
  returns_step Hwf "assumeNotNull" [a] [ta] (removeNullable ta)
    (eq_refl (Some (removeNullable ta))) start_nn Hsn;
  returns_step Hwf "assumeNotNull" [b] [tb] (removeNullable tb)
    (eq_refl (Some (removeNullable tb))) end_nn Hen;
  returns_step Hwf "assumeNotNull" [st] [tst] (removeNullable tst)
    (eq_refl (Some (removeNullable tst))) step_nn Htn;
  returns_step Hwf "isNull" [a] [ta] UInt8 (eq_refl (Some UInt8))
    start_isnull Hsi;
  returns_step Hwf "isNull" [b] [tb] UInt8 (eq_refl (Some UInt8))
    end_isnull Hei;
  returns_step Hwf "isNull" [st] [tst] UInt8 (eq_refl (Some UInt8))
    step_isnull Hti;
  let tmi := fresh "tmi" in let Rmi := fresh "Rmi" in
  let Imi := fresh "Imi" in
  destruct (resolve_arithmetic "minus" tb ta ltac:(auto 10) Ib Ia)
    as (tmi & Rmi & Imi);
  returns_step Hwf "minus" [b; a] [tb; ta] tmi Rmi minus_n Hmi;
  let tmo := fresh "tmo" in let Rmo := fresh "Rmo" in
  let Imo := fresh "Imo" in
  destruct (resolve_arithmetic "modulo" tmi tst ltac:(auto 10) Imi Ist)
    as (tmo & Rmo & Imo);
  returns_step Hwf "modulo" [minus_n; st] [tmi; tst] tmo Rmo modulo_n Hmo;
  returns_column Hwf zero_n Hzero;
  let teq := fresh "teq" in let Req := fresh "Req" in
  let Ieq := fresh "Ieq" in
  destruct (resolve_arithmetic "equals" tmo Int32 ltac:(auto 10) Imo
              (eq_refl true)) as (teq & Req & Ieq);
  returns_step Hwf "equals" [modulo_n; zero_n] [tmo; Int32] teq Req
    eq0_n Heq;
  let ttr := fresh "ttr" in let Rtr := fresh "Rtr" in
  let Itr := fresh "Itr" in
  destruct (resolve_if_integer UInt8 Int32 (removeNullable tst)
              (eq_refl true) (eq_refl true)
              (integerType_removeNullable tst Ist))
    as (ttr & Rtr & Itr);
  returns_step Hwf "if" [step_isnull; one_n; step_nn]
    [UInt8; Int32; removeNullable tst] ttr Rtr tricky_n Htr;
  let tpl := fresh "tpl" in let Rpl := fresh "Rpl" in
  let Ipl := fresh "Ipl" in
  destruct (resolve_arithmetic "plus" (removeNullable tb)
              (removeNullable tst) ltac:(auto 10)
              (integerType_removeNullable tb Ib)
              (integerType_removeNullable tst Ist))
    as (tpl & Rpl & Ipl);
  returns_step Hwf "plus" [end_nn; step_nn]
    [removeNullable tb; removeNullable tst] tpl Rpl plus_n Hpl;
  assert (isNullable ttr = false) as Ptr
    by (apply (resolveType_plain "if" _ ttr ltac:(discriminate) Rtr);
        unfold anyNullable; simpl;
        rewrite (integerType_plain tst Ist); reflexivity);
  assert (isNullable tpl = false) as Ppl
    by (apply (resolveType_plain "plus" _ tpl ltac:(discriminate) Rpl);
        unfold anyNullable; simpl;
        rewrite (integerType_plain tb Ib), (integerType_plain tst Ist);
        reflexivity);
  destruct (resolve_range (removeNullable ta) tpl ttr
              (integerType_removeNullable ta Ia) Ipl Itr
              (integerType_plain ta Ia) Ppl Ptr) as (x1 & R1 & I1);
  returns_step Hwf "range" [start_nn; plus_n; tricky_n]
    [removeNullable ta; tpl; ttr] (Array x1) R1 range1_n Hr1;
  destruct (resolve_range (removeNullable ta) (removeNullable tb) ttr
              (integerType_removeNullable ta Ia)
              (integerType_removeNullable tb Ib) Itr
              (integerType_plain ta Ia) (integerType_plain tb Ib) Ptr)
    as (x2 & R2 & I2);
  returns_step Hwf "range" [start_nn; end_nn; tricky_n]
    [removeNullable ta; removeNullable tb; ttr] (Array x2) R2 range2_n Hr2;
  destruct (negb (isNullable ta) && negb (isNullable tb)
            && negb (isNullable tst));
  [ destruct (resolve_if_arrays teq x1 x2 Ieq I1 I2) as (tres & Rres & Ires);
    returns_step Hwf "if" [eq0_n; range1_n; range2_n]
      [teq; Array x1; Array x2] tres Rres ret_n Hret
  | returns_node Hr1; returns_node Hr2;
    change (makeNullable (Array x1)) with (Nullable (Array x1));
    returns_convert Hwf (Array x1) (FunctionAt_TypeAt Hr1)
      (castable_integer_arrays (Array x1) (Nullable (Array x1))
         (integerArrayType_array x1 I1) (integerArrayType_nullable x1 I1))
      wrap1 Hw1;
    returns_convert Hwf (Array x2) (FunctionAt_TypeAt Hr2)
      (castable_integer_arrays (Array x2) (Nullable (Array x1))
         (integerArrayType_array x2 I2) (integerArrayType_nullable x1 I1))
      wrap2 Hw2;
    returns_column Hwf null_n Hnull;
    destruct (resolve_multiIf_arrays teq x1 Ieq I1) as (tres & Rres & Ires);
    returns_step Hwf "multiIf"
      [start_isnull; null_n; end_isnull; null_n; step_isnull; null_n;
       eq0_n; wrap1; wrap2]
      [UInt8; Nullable (Array x1); UInt8; Nullable (Array x1); UInt8;
       Nullable (Array x1); teq; Nullable (Array x1); Nullable (Array x1)]
      tres Rres ret_n Hret ];
  (eexists; eexists; exists tres;
   split; [reflexivity|];
   split; [exact (FunctionAt_TypeAt Hret)|];
   split; [exact Ires|exact Hwf]).

Lemma parseNode_returns c dag parsed_args dag0 :
  wellFormed dag ->
  parseFunctionArguments c dag = (inr parsed_args, dag0) ->
  (List.length (arguments c) = 2 \/ List.length (arguments c) = 3)%nat ->
  Forall (fun p => exists t, TypeAt dag0 p t /\ integerType t) parsed_args ->
  exists node dag1 t,
    parseNode c dag = (inr node, dag1) /\ TypeAt dag1 node t /\
    integerArrayType t /\ wellFormed dag1.
Proof.
  intros Hwf Ea Hlen Hty.
  pose proof (parsed_length c dag parsed_args dag0 Ea) as Hl.
  pose proof Ea as Ea'.
  apply parseExpressions_inv in Ea' as (_ & _ & _ & Hw).
  specialize (Hw Hwf). clear Hwf. rename Hw into Hwf.
  set (P := fun o : (Exception + nat) * ActionsDAG =>
              exists node dag1 t,
                o = (inr node, dag1) /\ TypeAt dag1 node t /\
                integerArrayType t /\ wellFormed dag1).
  change (P (parseNode c dag)).
  unfold parseNode, bind, ret. rewrite Ea. cbv beta iota.
  destruct parsed_args as [|a [|b [|st [|? ?]]]]; simpl in Hl;
    try (exfalso; lia); clear Hl Hlen; simpl.
  - apply Forall_cons_iff in Hty as [(ta & Hta & Ia) Hty].
    apply Forall_cons_iff in Hty as [(tb & Htb & Ib) _].
    returns_column Hwf one_n Hone.
    returns_column Hwf m1 Hm1.
    destruct (resolve_arithmetic "lessOrEquals" ta tb
                ltac:(auto 10) Ia Ib) as (tle & Rle & Ile).
    returns_step Hwf "lessOrEquals" [a; b] [ta; tb] tle Rle le_n Hle.
    destruct (resolve_if_integer tle Int32 Int32 Ile eq_refl eq_refl)
      as (tst & Rst & Ist).
    returns_step Hwf "if" [le_n; one_n; m1] [tle; Int32; Int32] tst Rst
      st Hst.
    pose proof (FunctionAt_TypeAt Hst) as Htst.
    returns_body Hwf Hta Htb Htst Ia Ib Ist a b st ta tb tst one_n.
  - apply Forall_cons_iff in Hty as [(ta & Hta & Ia) Hty].
    apply Forall_cons_iff in Hty as [(tb & Htb & Ib) Hty].
    apply Forall_cons_iff in Hty as [(tst & Htst & Ist) _].
    returns_column Hwf one_n Hone.
    returns_body Hwf Hta Htb Htst Ia Ib Ist a b st ta tb tst one_n.
Qed.

(** [parse] returns a node for every call of two or three arguments of
    integer type whose expected result is an array of integers. *)
Lemma parse_returns c dag parsed_args dag0 :
  wellFormed dag ->
  parseFunctionArguments c dag = (inr parsed_args, dag0) ->
  (List.length (arguments c) = 2 \/ List.length (arguments c) = 3)%nat ->
  Forall (fun p => exists t, TypeAt dag0 p t /\ integerType t) parsed_args ->
  integerArrayType (output_type c) ->
  exists r dag', parse c dag = (inr r, dag').
Proof.
  intros Hwf Ea Hlen Hty Hout.
  destruct (parseNode_returns c dag parsed_args dag0 Hwf Ea Hlen Hty)
    as (node & dag1 & t & E & Ht & It & Hw).
  unfold parse, bind. rewrite E.
  unfold convertNodeTypeIfNeeded, bind, getNode, ret.
  pose proof Ht as (n & Hn & Hnt). rewrite Hn.
  destruct (DataType_eqb (output_type c) (result_type n));
    [eexists; eexists; reflexivity|].
  destruct (convertNodeType_returns node (output_type c) (result_name n)
              t dag1 Hw Ht
              (castable_integer_arrays t (output_type c) It Hout))
    as (p & dag' & E' & _).
  exists p, dag'. exact E'.
Qed.

(* ================================================================== *)
(** * The computed progression (C1) *)

(** The step synthesized for a two-argument call fits its type. *)
Lemma default_step_inRange dag s a b :
  DefaultStep dag s -> inRange (step_type s) (if a <=? b then 1 else -1).
Proof.
  intros (m1 & le_n & le_t & _ & _ & _ & _ & Ht).
  cbn in Ht. destruct (isInteger (removeNullable le_t)); [|discriminate].
  destruct (isNullable le_t); cbn in Ht; injection Ht as <-;
    unfold inRange; cbn; destruct (a <=? b); lia.
Qed.

(** With a zero step the evaluation of the returned node raises; with a
    step pointing away from [end] the result, if there is one, lacks
    [end] although the remainder is zero; and at the upper end of the
    64-bit integers [end + step] wraps around, so that
    [sequence(2^63 - 2, 2^63 - 1, 1)] is empty. *)
Lemma sequence_zero_or_opposite_step_no_progression :
  runOnLiterals (sequenceCall [int32 1; int32 5; int32 0] (Array Int64))
  = inr None
  /\ (forall elements,
         runOnLiterals (sequenceCall [int32 1; int32 10; int32 (-3)]
                          (Array Int64))
         = inr (Some (VArray elements)) ->
         ~ In 10 elements)
  /\ Z.rem (10 - 1) (-3) = 0
  /\ runOnLiterals
       (sequenceCall [Literal Int64 (FInt 9223372036854775806);
                      Literal Int64 (FInt 9223372036854775807);
                      Literal Int64 (FInt 1)] (Array Int64))
     = inr (Some (VArray [])).
Proof.
  split; [vm_compute; reflexivity|].
  split; [|split; [reflexivity|vm_compute; reflexivity]].
  intros elements H. vm_compute in H. injection H as <-. intros [].
Qed.

(** C1 (amended).  [parse] returns a node for every call of two or three
    integer arguments.  Take a row where start, end and the step (given
    or synthesized) are integers within their declared types, start and
    end also within the element type of the expected result, the step
    is non-zero and points from start to end, and neither [end - start]
    nor [end + step] overflows 64 bits.  On it the node returned by
    [parse] evaluates to the progression from start by step that
    contains end exactly when [(end - start) mod step = 0] and stops
    before end otherwise.  The synthesized step of a two-argument call
    is in its type, non-zero and points from start to end.
    [sequence(1, 10, 3)] yields [1,4,7,10] and [sequence(1, 9, 3)] yields
    [1,4,7]. *)
Theorem sequence_computes_progression :
  (forall c dag parsed_args dag0,
      wellFormed dag ->
      parseFunctionArguments c dag = (inr parsed_args, dag0) ->
      (List.length (arguments c) = 2 \/ List.length (arguments c) = 3)%nat ->
      Forall (fun p => exists t, TypeAt dag0 p t /\ integerType t)
        parsed_args ->
      integerArrayType (output_type c) ->
      exists r dag', parse c dag = (inr r, dag'))
  /\ (forall c dag r dag' row,
      wellFormed dag -> parse c dag = (inr r, dag') ->
      exists parsed_args dag0 s,
        parseFunctionArguments c dag = (inr parsed_args, dag0) /\
        Arguments dag' s parsed_args /\
        TypeAt dag' (start_arg s) (start_type s) /\
        TypeAt dag' (end_arg s) (end_type s) /\
        TypeAt dag' (step_arg s) (step_type s) /\
        forall a b,
          valueOf dag' row (start_arg s) = Some (VInt a) ->
          valueOf dag' row (end_arg s) = Some (VInt b) ->
          inRange (start_type s) a -> inRange (end_type s) b ->
          inRange (arrayElement (output_type c)) a ->
          inRange (arrayElement (output_type c)) b ->
          inRange Int64 (b - a) ->
          (forall step,
              valueOf dag' row (step_arg s) = Some (VInt step) ->
              inRange (step_type s) step ->
              inRange Int64 (b + step) ->
              pointsTowards a b step ->
              valueOf dag' row r = Some (VArray (progression a b step))) /\
          (List.length (arguments c) = 2%nat ->
           inRange Int64 (b + (if a <=? b then 1 else -1)) ->
           valueOf dag' row r
           = Some (VArray (progression a b (if a <=? b then 1 else -1)))))
  /\ (forall a b step,
         pointsTowards a b step ->
         (In b (progression a b step) <-> Z.rem (b - a) step = 0))
  /\ runOnLiterals (sequenceCall [int32 1; int32 10; int32 3] (Array Int64))
     = inr (Some (VArray [1; 4; 7; 10]))
  /\ runOnLiterals (sequenceCall [int32 1; int32 9; int32 3] (Array Int64))
     = inr (Some (VArray [1; 4; 7])).
Proof.
  split; [exact parse_returns|].
  split; [|split; [exact progression_includes_end|
                   split; vm_compute; reflexivity]].
  intros c dag r dag' row Hwf H.
  destruct (parse_inv c dag r dag' Hwf H)
    as (args & dag0 & s & t & node & Ea & Hl & HA & HB & HF & He & Hw & Hr).
  exists args, dag0, s.
  pose proof HB as HB'. open_built HB'.
  repeat (split; [assumption|]).
  intros a b Ha Hb Ra Rb Oa Ob Rd. split.
  - intros step Hc Rc Rs Hdir.
    exact (returned_value_ints dag' s node t r (output_type c) row a b step
             Hw HB HF Hr Ha Hb Hc Hdir Ra Rb Rc Oa Ob Rd Rs).
  - intros Hlen Rs. rewrite <- (parsed_length c dag args dag0 Ea) in Hlen.
    destruct HA as [[-> HD]| ->]; [|discriminate].
    apply (returned_value_ints dag' s node t r (output_type c) row a b _
             Hw HB HF Hr Ha Hb); try assumption.
    + exact (default_step_value dag' s row a b Hw HB HD Ha Hb).
    + apply default_step_points.
    + exact (default_step_inRange dag' s a b HD).
Qed.

Lemma sequence_computes_progression_witness :
  exists r dag',
    parse (sequenceCall [int32 10; int32 1; int32 (-3)] (Array Int64)) []
    = (inr r, dag') /\
    valueOf dag' [] r = Some (VArray (progression 10 1 (-3))).
Proof.
  destruct (parse (sequenceCall [int32 10; int32 1; int32 (-3)]
                     (Array Int64)) [])
    as [[e|r] dag'] eqn:E; [vm_compute in E; discriminate E|].
  exists r, dag'. split; [reflexivity|].
  destruct (proj1 (proj2 sequence_computes_progression)
              (sequenceCall [int32 10; int32 1; int32 (-3)] (Array Int64))
              [] r dag' [] wellFormed_nil E)
    as (args & dag0 & s & Ea & HA & Hts & Hte & Htst & Hval).
  destruct HA as [[-> _]| ->];
    match type of Ea with ?l = _ =>
      let v := eval vm_compute in l in change l with v in Ea end;
    [discriminate Ea|].
  match type of E with ?l = _ =>
    let v := eval vm_compute in l in change l with v in E end.
  injection Ea as Hs He Hst _. injection E as Hr Hd.
  assert (forall p u, TypeAt dag' p u ->
                      (p = 0 \/ p = 1 \/ p = 2)%nat -> u = Int32)
    as Hint32.
  { intros p u (n & Hn & <-) Hp. rewrite <- Hd in Hn.
    destruct Hp as [->|[->| ->]]; vm_compute in Hn;
      injection Hn as <-; reflexivity. }
  rewrite <- Hs in Hts. rewrite <- He in Hte. rewrite <- Hst in Htst.
  apply Hint32 in Hts; [|auto]. apply Hint32 in Hte; [|auto].
  apply Hint32 in Htst; [|auto].
  destruct (Hval 10 1) as [Hstep _].
  - rewrite <- Hs, <- Hd. vm_compute. reflexivity.
  - rewrite <- He, <- Hd. vm_compute. reflexivity.
  - rewrite Hts. unfold inRange. simpl. lia.
  - rewrite Hte. unfold inRange. simpl. lia.
  - unfold inRange. simpl. lia.
  - unfold inRange. simpl. lia.
  - unfold inRange. simpl. lia.
  - apply Hstep.
    + rewrite <- Hst, <- Hd. vm_compute. reflexivity.
    + rewrite Htst. unfold inRange. simpl. lia.
    + unfold inRange. simpl. lia.
    + right. lia.
Defined.

(* ================================================================== *)
(** * Null guards (C2) *)

(** When the declared type of start, of end or of the step is nullable,
    the node built by [parse] is the multi-way conditional
    [multiIf(isNull(start), NULL, isNull(end), NULL, isNull(step), NULL,
    inclusive, rangeIncl, rangeExcl)], in this order.  On a row where one
    of the three is NULL and the step is NULL or a non-zero integer, the
    node evaluates to NULL whatever the other values are, and so does the
    returned node when no cast to a non-nullable type was requested. *)
Lemma null_guards_in_fixed_order c dag r dag' :
  wellFormed dag -> parse c dag = (inr r, dag') ->
  exists parsed_args dag0 s node t,
    parseFunctionArguments c dag = (inr parsed_args, dag0) /\
    Arguments dag' s parsed_args /\
    TypeAt dag' (start_arg s) (start_type s) /\
    TypeAt dag' (end_arg s) (end_type s) /\
    TypeAt dag' (step_arg s) (step_type s) /\
    (r = node \/ FunctionAt dag' r "CAST" [node] (output_type c)) /\
    TypeAt dag' node t /\
    (isNullable (start_type s) = true \/ isNullable (end_type s) = true \/
     isNullable (step_type s) = true ->
     (forall k,
         treeOf (8 + k) dag' node
         = guardedResultTree (makeNullable (range_1_type s))
             (leafTree dag' (start_arg s)) (leafTree dag' (end_arg s))
             (stepTree dag' s parsed_args)) /\
     (forall row va vb vc,
         valueOf dag' row (start_arg s) = Some va ->
         valueOf dag' row (end_arg s) = Some vb ->
         valueOf dag' row (step_arg s) = Some vc ->
         scalarValue va -> scalarValue vb -> scalarValue vc ->
         va = VNull \/ vb = VNull \/ vc = VNull ->
         vc <> VInt 0 ->
         valueOf dag' row node = Some VNull /\
         (r = node \/ isNullable (output_type c) = true ->
          valueOf dag' row r = Some VNull))).
Proof.
  intros Hwf H.
  destruct (parse_inv c dag r dag' Hwf H)
    as (args & dag0 & s & t & node & Ea & Hl & HA & HB & HF & He & Hw & Hr).
  exists args, dag0, s, node, t.
  pose proof HB as HB'. open_built HB'.
  pose proof (Final_TypeAt dag' s node t HF) as Ht.
  repeat (split; [assumption|]).
  intros Hsome.
  assert (noneNullable s = false) as Hpath.
  { unfold noneNullable.
    destruct Hsome as [E|[E|E]]; rewrite E; simpl;
      rewrite ?andb_false_r; reflexivity. }
  split.
  - intros k. rewrite (result_tree k dag' s args node t HB HF HA Hl).
    now rewrite Hpath.
  - intros row va vb vc Ha Hb Hc Sa Sb Sc Hnull Hnz.
    pose proof (sequence_value_null dag' s node t row va vb vc
                  Hw HB HF Hpath Ha Hb Hc Sa Sb Sc Hnull Hnz) as Hv.
    split; [exact Hv|].
    intros [->|Hout]; [exact Hv|].
    destruct Hr as [->|Hcast]; [exact Hv|].
    rewrite (valueOf_function dag' row r "CAST" [node] (output_type c)
               Hw Hcast).
    cbn [map allValues option_map]. rewrite Hv. cbn. now rewrite Hout.
Qed.

(** C2.  The call [sequence(NULL, 10, 0)] with a nullable start.  The
    node built is the multi-way conditional of the claim, its first
    guard [isNull(start)]; yet evaluating it raises instead of yielding
    NULL.  Both ranges are arguments of the conditional and are
    evaluated before it selects (the premise of the comment at lines
    100-101 of the source), and [range] rejects the zero step, which the
    guarded step of line 102 replaces only when it is NULL.  With step
    [1] the same call yields NULL. *)
Theorem null_start_with_zero_step_raises :
  (exists r dag',
      parse (sequenceCall [nullableInt32 Null; int32 10; int32 0]
               (Nullable (Array Int64))) [] = (inr r, dag') /\
      treeOf 8 dag' r
      = guardedResultTree (Nullable (Array Int64))
          (TConst (Nullable Int32) Null) (constInt32 10) (constInt32 0))
  /\ runOnLiterals (sequenceCall [nullableInt32 Null; int32 10; int32 0]
                      (Nullable (Array Int64)))
     = inr None
  /\ runOnLiterals (sequenceCall [nullableInt32 Null; int32 10; int32 1]
                      (Nullable (Array Int64)))
     = inr (Some VNull).
Proof.
  split; [eexists; eexists; split; vm_compute; reflexivity|].
  split; vm_compute; reflexivity.
Qed.

(* ================================================================== *)
(** * The range nodes (C6), the condition (C7), the plain branch (C8) *)

(** In [sequence(1, 10, 3)] the inclusive range adds [assumeNotNull(step)]
    to the end, not the guarded step it passes as third argument. *)
Lemma inclusive_range_adds_unguarded_step :
  exists r dag',
    parse (sequenceCall [int32 1; int32 10; int32 3] (Array Int64)) []
    = (inr r, dag') /\
    treeOf 8 dag' r
    = TFun "if"
        [inclusiveTree (constInt32 1) (constInt32 10) (constInt32 3);
         rangeInclTree (constInt32 1) (constInt32 10) (constInt32 3);
         rangeExclTree (constInt32 1) (constInt32 10) (constInt32 3)] /\
    rangeInclTree (constInt32 1) (constInt32 10) (constInt32 3)
    <> specRangeInclTree (constInt32 1) (constInt32 10) (constInt32 3).
Proof.
  eexists. eexists. split; [vm_compute; reflexivity|].
  split; [vm_compute; reflexivity|]. discriminate.
Qed.

(** The value of the guarded step: the placeholder on a NULL step, the
    step itself otherwise. *)
Lemma guarded_step_value dag s row v :
  wellFormed dag -> Built dag s ->
  valueOf dag row (step_arg s) = Some v -> scalarValue v ->
  valueOf dag row (tricky_step_node s)
  = Some (match v with VNull => VInt 1 | _ => v end).
Proof.
  intros Hwf HB Hv Sv. open_built HB. value_step Hwf.
  destruct v; [reflexivity|reflexivity|contradiction].
Qed.

(** C6 (amended).  The inclusive range node is
    [range(start', plus(end', step'), stepForRange)] and the exclusive one
    [range(start', end', stepForRange)], with
    [stepForRange = if(isNull(step), 1, step')]; the sum uses [step']
    itself.  [stepForRange] evaluates to the placeholder [1] on a NULL
    step, and then the node built on the guarded branch evaluates to NULL
    whatever start and end are. *)
Theorem range_nodes_and_step_placeholder c dag r dag' :
  wellFormed dag -> parse c dag = (inr r, dag') ->
  exists parsed_args dag0 s node t,
    parseFunctionArguments c dag = (inr parsed_args, dag0) /\
    Arguments dag' s parsed_args /\
    (r = node \/ FunctionAt dag' r "CAST" [node] (output_type c)) /\
    Final dag' s node t /\
    let start := leafTree dag' (start_arg s) in
    let end_ := leafTree dag' (end_arg s) in
    let step := stepTree dag' s parsed_args in
    (forall k,
        treeOf (6 + k) dag' (range_1_node s) = rangeInclTree start end_ step /\
        treeOf (6 + k) dag' (range_2_node s) = rangeExclTree start end_ step) /\
    (forall row v,
        valueOf dag' row (step_arg s) = Some v -> scalarValue v ->
        valueOf dag' row (tricky_step_node s)
        = Some (match v with VNull => VInt 1 | _ => v end)) /\
    (forall row va vb,
        noneNullable s = false ->
        valueOf dag' row (start_arg s) = Some va ->
        valueOf dag' row (end_arg s) = Some vb ->
        valueOf dag' row (step_arg s) = Some VNull ->
        scalarValue va -> scalarValue vb ->
        valueOf dag' row node = Some VNull).
Proof.
  intros Hwf H.
  destruct (parse_inv c dag r dag' Hwf H)
    as (args & dag0 & s & t & node & Ea & Hl & HA & HB & HF & He & Hw & Hr).
  exists args, dag0, s, node, t.
  repeat (split; [assumption|]). cbv zeta.
  split; [|split].
  - intros k. destruct (parts_tree k dag' s args HB HA Hl) as (_ & _ & H1 & H2).
    split; assumption.
  - intros row v Hv Sv. exact (guarded_step_value dag' s row v Hw HB Hv Sv).
  - intros row va vb Hpath Ha Hb Hc Sa Sb.
    apply (sequence_value_null dag' s node t row va vb VNull
             Hw HB HF Hpath Ha Hb Hc Sa Sb I); [auto|discriminate].
Qed.

Lemma range_nodes_and_step_placeholder_witness :
  exists r dag',
    parse (sequenceCall [int32 1; int32 10; nullableInt32 Null]
             (Nullable (Array Int64))) [] = (inr r, dag') /\
    exists s node t,
      Final dag' s node t /\
      treeOf 6 dag' (range_1_node s)
      = rangeInclTree (leafTree dag' (start_arg s))
          (leafTree dag' (end_arg s)) (leafTree dag' (step_arg s)).
Proof.
  destruct (parse (sequenceCall [int32 1; int32 10; nullableInt32 Null]
                     (Nullable (Array Int64))) [])
    as [[e|r] dag'] eqn:E; [vm_compute in E; discriminate E|].
  exists r, dag'. split; [reflexivity|].
  destruct (range_nodes_and_step_placeholder
              (sequenceCall [int32 1; int32 10; nullableInt32 Null]
                 (Nullable (Array Int64)))
              [] r dag' wellFormed_nil E)
    as (args & dag0 & s & node & t & Ea & HA & Hr & HF & Htree & _).
  exists s, node, t. split; [exact HF|].
  destruct HA as [[-> _]| ->];
    match type of Ea with ?l = _ =>
      let v := eval vm_compute in l in change l with v in Ea end;
    [discriminate Ea|].
  exact (proj1 (Htree 0%nat)).
Defined.

(** In [sequence(1, 10, 3)] the selection condition subtracts and
    divides the arguments themselves; no [assumeNotNull] node is below
    it. *)
Lemma condition_reads_raw_arguments :
  exists r dag',
    parse (sequenceCall [int32 1; int32 10; int32 3] (Array Int64)) []
    = (inr r, dag') /\
    treeOf 8 dag' r
    = TFun "if"
        [inclusiveTree (constInt32 1) (constInt32 10) (constInt32 3);
         rangeInclTree (constInt32 1) (constInt32 10) (constInt32 3);
         rangeExclTree (constInt32 1) (constInt32 10) (constInt32 3)] /\
    inclusiveTree (constInt32 1) (constInt32 10) (constInt32 3)
    <> specInclusiveTree (constInt32 1) (constInt32 10) (constInt32 3) /\
    countFunction "assumeNotNull"
      (inclusiveTree (constInt32 1) (constInt32 10) (constInt32 3)) = 0%nat.
Proof.
  eexists. eexists. split; [vm_compute; reflexivity|].
  split; [vm_compute; reflexivity|]. split; [discriminate|reflexivity].
Qed.

(** The selection condition on a row of integers that fit their types
    and whose difference does not overflow. *)
Lemma condition_value dag s row a b c :
  wellFormed dag -> Built dag s ->
  valueOf dag row (start_arg s) = Some (VInt a) ->
  valueOf dag row (end_arg s) = Some (VInt b) ->
  valueOf dag row (step_arg s) = Some (VInt c) ->
  c <> 0 ->
  inRange (start_type s) a -> inRange (end_type s) b ->
  inRange (step_type s) c -> inRange Int64 (b - a) ->
  valueOf dag row (modulo_step_eq_zero_node s)
  = Some (boolValue (Z.rem (b - a) c =? 0)).
Proof.
  intros Hwf HB Ha Hb Hc Hnz Ra Rb Rc Rd.
  destruct (Built_inRange_condition dag s a b c HB Ra Rb Rc Rd Hnz)
    as (Wmi & Wmo).
  apply wrapInteger_inRange in Wmi, Wmo.
  open_built HB. value_step Hwf. cbn.
  rewrite (proj2 (Z.eqb_neq c 0) Hnz). cbn.
  rewrite Wmi, Wmo. reflexivity.
Qed.

(** C7 (amended).  The selection condition is
    [equals(modulo(minus(end, start), step), 0)] on the inputs themselves,
    not on their [assumeNotNull] projections, and it is the condition
    that chooses between the two ranges.  The projections feed only the
    range nodes: none is below the condition, four are below the
    inclusive range, three below the exclusive one, and these seven are
    all there are below the node built.  On a row of integers within
    their declared types, with a non-zero step and [end - start] within
    64 bits, the condition holds exactly when
    [(end - start) mod step = 0]. *)
Theorem selection_condition_on_inputs c dag r dag' :
  wellFormed dag -> parse c dag = (inr r, dag') ->
  exists parsed_args dag0 s node t,
    parseFunctionArguments c dag = (inr parsed_args, dag0) /\
    Arguments dag' s parsed_args /\
    (r = node \/ FunctionAt dag' r "CAST" [node] (output_type c)) /\
    Built dag' s /\
    Final dag' s node t /\
    let start := leafTree dag' (start_arg s) in
    let end_ := leafTree dag' (end_arg s) in
    let step := stepTree dag' s parsed_args in
    (forall k,
        treeOf (5 + k) dag' (modulo_step_eq_zero_node s)
        = inclusiveTree start end_ step) /\
    (forall k,
        treeOf (6 + k) dag' (range_1_node s) = rangeInclTree start end_ step /\
        treeOf (6 + k) dag' (range_2_node s) = rangeExclTree start end_ step) /\
    (forall k,
        treeOf (8 + k) dag' node
        = if noneNullable s
          then plainResultTree start end_ step
          else guardedResultTree (makeNullable (range_1_type s))
                 start end_ step) /\
    countFunction "assumeNotNull" (inclusiveTree start end_ step) = 0%nat /\
    countFunction "assumeNotNull" (rangeInclTree start end_ step) = 4%nat /\
    countFunction "assumeNotNull" (rangeExclTree start end_ step) = 3%nat /\
    (forall k,
        countFunction "assumeNotNull" (treeOf (8 + k) dag' node) = 7%nat) /\
    (forall row a b step_value,
        valueOf dag' row (start_arg s) = Some (VInt a) ->
        valueOf dag' row (end_arg s) = Some (VInt b) ->
        valueOf dag' row (step_arg s) = Some (VInt step_value) ->
        step_value <> 0 ->
        inRange (start_type s) a -> inRange (end_type s) b ->
        inRange (step_type s) step_value -> inRange Int64 (b - a) ->
        valueOf dag' row (modulo_step_eq_zero_node s)
        = Some (boolValue (Z.rem (b - a) step_value =? 0))).
Proof.
  intros Hwf H.
  destruct (parse_inv c dag r dag' Hwf H)
    as (args & dag0 & s & t & node & Ea & Hl & HA & HB & HF & He & Hw & Hr).
  exists args, dag0, s, node, t.
  repeat (split; [assumption|]). cbv zeta.
  assert (LeafAt dag' (start_arg s) /\ LeafAt dag' (end_arg s))
    as [Hls Hle]
    by (destruct HA as [[-> _]| ->]; split_leaves; split; assumption).
  pose proof (stepTree_counts dag' s args "assumeNotNull" HB HA Hl
                ltac:(discriminate) ltac:(discriminate)) as Hstep.
  pose proof (leafTree_no_function dag' (start_arg s) "assumeNotNull" Hls)
    as Hstart.
  pose proof (leafTree_no_function dag' (end_arg s) "assumeNotNull" Hle)
    as Hend.
  split; [intros k; apply (parts_tree k dag' s args HB HA Hl)|].
  split; [intros k;
          destruct (parts_tree k dag' s args HB HA Hl) as (_ & _ & H1 & H2);
          split; assumption|].
  split; [intros k; apply (result_tree k dag' s args node t HB HF HA Hl)|].
  split; [|split; [|split; [|split]]].
  - unfold inclusiveTree, constInt32.
    cbn [countFunction map list_sum String.eqb].
    rewrite Hstep, Hstart, Hend. reflexivity.
  - unfold rangeInclTree, stepForRangeTree, notNull, constInt32.
    cbn [countFunction map list_sum String.eqb].
    rewrite Hstep, Hstart, Hend. reflexivity.
  - unfold rangeExclTree, stepForRangeTree, notNull, constInt32.
    cbn [countFunction map list_sum String.eqb].
    rewrite Hstep, Hstart, Hend. reflexivity.
  - intros k. rewrite (result_tree k dag' s args node t HB HF HA Hl).
    destruct (noneNullable s);
      unfold plainResultTree, guardedResultTree, inclusiveTree,
        rangeInclTree, rangeExclTree, stepForRangeTree, notNull, constInt32;
      cbn [countFunction map list_sum String.eqb];
      rewrite Hstep, Hstart, Hend; reflexivity.
  - intros row a b st Ha Hb Hc Hnz Ra Rb Rc Rd.
    exact (condition_value dag' s row a b st Hw HB Ha Hb Hc Hnz Ra Rb Rc Rd).
Qed.

Lemma selection_condition_on_inputs_witness :
  exists r dag',
    parse (sequenceCall [int32 1; int32 9] (Array Int64)) [] = (inr r, dag') /\
    exists s,
      treeOf 5 dag' (modulo_step_eq_zero_node s)
      = inclusiveTree (leafTree dag' (start_arg s))
          (leafTree dag' (end_arg s))
          (defaultStepTree (leafTree dag' (start_arg s))
             (leafTree dag' (end_arg s))).
Proof.
  destruct (parse (sequenceCall [int32 1; int32 9] (Array Int64)) [])
    as [[e|r] dag'] eqn:E; [vm_compute in E; discriminate E|].
  exists r, dag'. split; [reflexivity|].
  destruct (selection_condition_on_inputs
              (sequenceCall [int32 1; int32 9] (Array Int64))
              [] r dag' wellFormed_nil E)
    as (args & dag0 & s & node & t & Ea & HA & Hr & HB & HF & Htree & _).
  exists s.
  destruct HA as [[-> _]| ->];
    match type of Ea with ?l = _ =>
      let v := eval vm_compute in l in change l with v in Ea end;
    [|discriminate Ea].
  exact (Htree 0%nat).
Defined.

(** With no nullable argument type, [sequence(1, 10, 3)] still tests the
    step for NULL, once in each range node. *)
Lemma plain_branch_keeps_step_null_test :
  exists r dag',
    parse (sequenceCall [int32 1; int32 10; int32 3] (Array Int64)) []
    = (inr r, dag') /\
    countFunction "isNull" (treeOf 8 dag' r) = 2%nat.
Proof. eexists. eexists. split; vm_compute; reflexivity. Qed.

(** C8 (amended).  When no declared type among start, end and step is
    nullable, the node built by [parse] is the two-way conditional
    [if(inclusive, rangeIncl, rangeExcl)].  Its subtree has no multi-way
    conditional and no cast, and two null tests: [isNull(step)] inside the
    guarded step of each range node. *)
Theorem plain_branch_is_two_way_conditional c dag r dag' :
  wellFormed dag -> parse c dag = (inr r, dag') ->
  exists parsed_args dag0 s node t,
    parseFunctionArguments c dag = (inr parsed_args, dag0) /\
    Arguments dag' s parsed_args /\
    TypeAt dag' (start_arg s) (start_type s) /\
    TypeAt dag' (end_arg s) (end_type s) /\
    TypeAt dag' (step_arg s) (step_type s) /\
    (r = node \/ FunctionAt dag' r "CAST" [node] (output_type c)) /\
    TypeAt dag' node t /\
    (isNullable (start_type s) = false ->
     isNullable (end_type s) = false ->
     isNullable (step_type s) = false ->
     forall k,
       treeOf (8 + k) dag' node
       = plainResultTree (leafTree dag' (start_arg s))
           (leafTree dag' (end_arg s)) (stepTree dag' s parsed_args) /\
       countFunction "multiIf" (treeOf (8 + k) dag' node) = 0%nat /\
       countFunction "CAST" (treeOf (8 + k) dag' node) = 0%nat /\
       countFunction "isNull" (treeOf (8 + k) dag' node) = 2%nat).
Proof.
  intros Hwf H.
  destruct (parse_inv c dag r dag' Hwf H)
    as (args & dag0 & s & t & node & Ea & Hl & HA & HB & HF & He & Hw & Hr).
  exists args, dag0, s, node, t.
  pose proof HB as HB'. open_built HB'.
  pose proof (Final_TypeAt dag' s node t HF) as Ht.
  repeat (split; [assumption|]).
  intros Ns Ne Nst k.
  assert (noneNullable s = true) as Hpath
    by (unfold noneNullable; rewrite Ns, Ne, Nst; reflexivity).
  rewrite (result_tree k dag' s args node t HB HF HA Hl), Hpath.
  assert (LeafAt dag' (start_arg s) /\ LeafAt dag' (end_arg s))
    as [Hls Hle]
    by (destruct HA as [[-> _]| ->]; split_leaves; split; assumption).
  split; [reflexivity|].
  unfold plainResultTree, inclusiveTree, rangeInclTree, rangeExclTree,
    stepForRangeTree, notNull, constInt32.
  cbn [countFunction map list_sum String.eqb].
  rewrite !(stepTree_counts dag' s args "multiIf" HB HA Hl) by discriminate.
  rewrite !(stepTree_counts dag' s args "CAST" HB HA Hl) by discriminate.
  rewrite !(stepTree_counts dag' s args "isNull" HB HA Hl) by discriminate.
  rewrite !leafTree_no_function by assumption.
  repeat split; reflexivity.
Qed.

Lemma plain_branch_is_two_way_conditional_witness :
  exists r dag',
    parse (sequenceCall [int32 1; int32 10; int32 3] (Array Int64)) []
    = (inr r, dag') /\
    exists parsed_args s node,
      (r = node \/ FunctionAt dag' r "CAST" [node] (Array Int64)) /\
      treeOf 8 dag' node
      = plainResultTree (leafTree dag' (start_arg s))
          (leafTree dag' (end_arg s)) (stepTree dag' s parsed_args).
Proof.
  destruct (parse (sequenceCall [int32 1; int32 10; int32 3] (Array Int64)) [])
    as [[e|r] dag'] eqn:E; [vm_compute in E; discriminate E|].
  exists r, dag'. split; [reflexivity|].
  destruct (plain_branch_is_two_way_conditional
              (sequenceCall [int32 1; int32 10; int32 3] (Array Int64))
              [] r dag' wellFormed_nil E)
    as (args & dag0 & s & node & t & Ea & HA & Hts & Hte & Htst & Hr & _
        & Hplain).
  exists args, s, node. split; [exact Hr|].
  match type of E with ?l = _ =>
    let v := eval vm_compute in l in change l with v in E end.
  injection E as Hr' Hd.
  assert (forall p u, TypeAt dag' p u ->
                      (p = 0 \/ p = 1 \/ p = 2)%nat -> isNullable u = false)
    as Hplainty.
  { intros p u (n & Hn & <-) Hp. rewrite <- Hd in Hn.
    destruct Hp as [->|[->| ->]]; vm_compute in Hn;
      injection Hn as <-; reflexivity. }
  destruct HA as [[-> _]| ->];
    match type of Ea with ?l = _ =>
      let v := eval vm_compute in l in change l with v in Ea end;
    [discriminate Ea|].
  injection Ea as Hs He Hst _.
  refine (proj1 (Hplain _ _ _ 0%nat)).
  - apply (Hplainty _ _ Hts). rewrite <- Hs. auto.
  - apply (Hplainty _ _ Hte). rewrite <- He. auto.
  - apply (Hplainty _ _ Htst). rewrite <- Hst. auto.
Defined.

(* ================================================================== *)
(** * Footprint of the builder operations *)

Lemma grows_refl k dag : grows k dag dag.
Proof.
  exists []. rewrite app_nil_r. repeat split; auto. simpl; lia.
Qed.

Lemma grows_trans k1 k2 a b c :
  grows k1 a b -> grows k2 b c -> grows (k1 + k2) a c.
Proof.
  intros (x & -> & Lx & Ix & Wx) (y & -> & Ly & Iy & Wy).
  exists (x ++ y). rewrite app_assoc. repeat split; auto.
  - rewrite length_app. lia.
  - apply Forall_app. split; assumption.
Qed.

Lemma grows_weaken k k' dag dag' :
  (k <= k')%nat -> grows k dag dag' -> grows k' dag dag'.
Proof.
  intros Hk (x & -> & Lx & Ix & Wx). exists x. repeat split; auto. lia.
Qed.

Lemma grows_extends k dag dag' : grows k dag dag' -> extends dag dag'.
Proof. intros (x & -> & _). now exists x. Qed.

Lemma adds_ret {A} (a : A) allowed (returned : A -> Prop) :
  returned a -> adds 0 allowed returned (ret a).
Proof.
  intros Ha dag o dag' H. inversion H; subst.
  split; [apply grows_refl|exact Ha].
Qed.

Lemma adds_throw {A} e (allowed : Exception -> Prop) (returned : A -> Prop) :
  allowed e -> adds 0 allowed returned (throw e).
Proof.
  intros He dag o dag' H. inversion H; subst.
  split; [apply grows_refl|exact He].
Qed.

Lemma adds_weaken {A} k k' (P P' : Exception -> Prop) (Q Q' : A -> Prop) m :
  (k <= k')%nat -> (forall e, P e -> P' e) -> (forall a, Q a -> Q' a) ->
  adds k P Q m -> adds k' P' Q' m.
Proof.
  intros Hk HP HQ Hm dag o dag' H. destruct (Hm dag o dag' H) as [Hg Ho].
  split; [eapply grows_weaken; eauto|]. destruct o; auto.
Qed.

Lemma adds_bind {A B} k1 k2 (P : Exception -> Prop) (Q : A -> Prop)
    (R : B -> Prop) (m : Build A) (f : A -> Build B) :
  adds k1 P Q m -> (forall a, Q a -> adds k2 P R (f a)) ->
  adds (k1 + k2) P R (bind m f).
Proof.
  intros Hm Hf dag o dag' H. unfold bind in H.
  destruct (m dag) as [[e|a] d1] eqn:E.
  - inversion H; subst. destruct (Hm dag _ _ E) as [Hg He].
    split; [|exact He]. eapply grows_weaken; [|exact Hg]. lia.
  - destruct (Hm dag _ _ E) as [Hg Ha].
    destruct (Hf a Ha d1 o dag' H) as [Hg' Ho].
    split; [eapply grows_trans; eauto|exact Ho].
Qed.

Lemma adds_getNode p :
  adds 0 builderError (fun _ : Node => True) (getNode p).
Proof.
  intros dag o dag' H. apply getNode_inv in H as [-> Ho].
  split; [apply grows_refl|]. destruct o; [|exact I].
  destruct Ho as [-> _]. now right.
Qed.

(** [addNode] returns an existing position or appends the node. *)
Lemma addNode_cases n dag :
  (exists p, addNode n dag = (inr p, dag)) \/
  addNode n dag = (inr (List.length dag), dag ++ [n]).
Proof.
  unfold addNode. destruct (findNode n dag 0); eauto.
Qed.

Lemma addNode_grows n dag o dag' :
  addNode n dag = (o, dag') -> type n <> INPUT ->
  Forall (fun c => (c < List.length dag)%nat) (children n) ->
  grows 1 dag dag' /\ exists p, o = inr p.
Proof.
  intros H Hn Hc. destruct (addNode_cases n dag) as [[p E]|E];
    rewrite E in H; inversion H; subst.
  - split; [apply grows_refl|eauto].
  - split; [|eauto]. exists [n]. repeat split; auto.
    intros Hw. now apply wellFormed_snoc.
Qed.

Lemma adds_addColumnToActionsDAG t v :
  adds 1 (fun _ => False) (fun _ : nat => True) (addColumnToActionsDAG t v).
Proof.
  intros dag o dag' H. unfold addColumnToActionsDAG in H.
  apply addNode_grows in H as [Hg [p ->]];
    [auto|simpl; discriminate|constructor].
Qed.

Lemma getNodes_error args dag e d1 :
  getNodes args dag = (inl e, d1) -> d1 = dag /\ e = LOGICAL_ERROR.
Proof.
  revert e d1. induction args as [|p ps IH]; intros e d1 E; simpl in E;
    [discriminate|].
  unfold bind in E. destruct (getNode p dag) as [[x|n] d2] eqn:E1.
  - inversion E; subst. apply getNode_inv in E1 as [-> [-> _]]. auto.
  - apply getNode_inv in E1 as [-> _].
    destruct (getNodes ps dag) as [[x|ns] d3] eqn:E2; inversion E; subst.
    eauto.
Qed.

Lemma adds_toFunctionNode f args :
  adds 1 builderError (fun _ : nat => True) (toFunctionNode f args).
Proof.
  intros dag o dag' H. unfold toFunctionNode, bind in H.
  destruct (getNodes args dag) as [[e|ns] d1] eqn:E.
  - apply getNodes_error in E as [-> ->]. inversion H; subst.
    split; [apply grows_refl|now right].
  - apply getNodes_inv in E as [-> Hns].
    destruct (resolveType f (map result_type ns)).
    + apply addNode_grows in H as [Hg [p ->]]; auto.
      * simpl; discriminate.
      * simpl. eapply Forall2_below; eauto.
    + inversion H; subst. split; [apply grows_refl|now left].
Qed.

Lemma adds_convertNodeType node target nm :
  adds 1 builderError (fun _ : nat => True) (convertNodeType node target nm).
Proof.
  intros dag o dag' H. unfold convertNodeType, bind in H.
  destruct (getNode node dag) as [[e|n] d1] eqn:E.
  - inversion H; subst. apply getNode_inv in E as [-> [-> _]].
    split; [apply grows_refl|now right].
  - apply getNode_inv in E as [-> Hn].
    destruct (castable (result_type n) target).
    + apply addNode_grows in H as [Hg [p ->]]; auto.
      * simpl; discriminate.
      * simpl. constructor; [|constructor]. apply nth_error_Some. congruence.
    + inversion H; subst. split; [apply grows_refl|now left].
Qed.

Lemma adds_parseExpression e :
  adds 1 builderError (fun _ : nat => True) (parseExpression e).
Proof.
  destruct e as [field|t v]; simpl.
  - intros dag o dag' H.
    destruct (nth_error (getInputs dag) field); inversion H; subst;
      (split; [apply grows_refl|]); [exact I|now right].
  - eapply adds_weaken; [| | |apply adds_addColumnToActionsDAG];
      [lia|contradiction|auto].
Qed.

Lemma adds_parseExpressions es :
  adds (List.length es) builderError
    (fun ps : list nat => List.length ps = List.length es)
    (parseExpressions es).
Proof.
  induction es as [|e es IH]; simpl.
  - now apply adds_ret.
  - apply (adds_bind 1%nat (List.length es) builderError (fun _ => True));
      [apply adds_parseExpression|]. intros p _.
    replace (List.length es) with (List.length es + 0)%nat by lia.
    apply (adds_bind (List.length es) 0%nat builderError
             (fun ps : list nat => List.length ps = List.length es));
      [exact IH|].
    intros ps Hps. apply adds_ret. simpl. lia.
Qed.

Lemma adds_convertNodeTypeIfNeeded c node :
  adds 1 builderError (fun _ : nat => True) (convertNodeTypeIfNeeded c node).
Proof.
  unfold convertNodeTypeIfNeeded.
  apply (adds_bind 0%nat 1%nat builderError (fun _ => True));
    [apply adds_getNode|].
  intros n _. destruct (DataType_eqb (output_type c) (result_type n)).
  - apply (adds_weaken 0%nat 1%nat builderError builderError
             (fun _ => True) (fun _ => True));
      [lia|auto|auto|apply adds_ret; exact I].
  - apply adds_convertNodeType.
Qed.

(* ================================================================== *)
(** * Footprint of the handler *)

Lemma adds_column_builder t v :
  adds 1 builderError (fun _ : nat => True) (addColumnToActionsDAG t v).
Proof.
  apply (adds_weaken 1%nat 1%nat (fun _ => False) builderError
           (fun _ => True) (fun _ => True));
    [lia|contradiction|auto|apply adds_addColumnToActionsDAG].
Qed.

(** Peels one statement off a chain of binds, charging it its nodes. *)
Ltac adds_step :=
  lazymatch goal with
  | |- adds ?k ?P _ (bind (toFunctionNode _ _) _) =>
      let k2 := eval compute in (k - 1)%nat in
      apply (adds_bind 1%nat k2 P (fun _ => True));
      [apply adds_toFunctionNode | intros ? _]
  | |- adds ?k ?P _ (bind (convertNodeType _ _ _) _) =>
      let k2 := eval compute in (k - 1)%nat in
      apply (adds_bind 1%nat k2 P (fun _ => True));
      [apply adds_convertNodeType | intros ? _]
  | |- adds ?k ?P _ (bind (addColumnToActionsDAG _ _) _) =>
      let k2 := eval compute in (k - 1)%nat in
      apply (adds_bind 1%nat k2 P (fun _ => True));
      [apply adds_column_builder | intros ? _]
  | |- adds ?k ?P _ (bind (getNode _) _) =>
      apply (adds_bind 0%nat k P (fun _ => True));
      [apply adds_getNode | intros ? _]
  end.

(** Closes a chain on its last statement. *)
Ltac adds_last :=
  lazymatch goal with
  | |- adds ?k ?P _ (toFunctionNode _ _) =>
      apply (adds_weaken 1%nat k P P (fun _ => True) (fun _ => True));
      [lia|auto|auto|apply adds_toFunctionNode]
  | |- adds ?k ?P _ (ret _) =>
      apply (adds_weaken 0%nat k P P (fun _ => True) (fun _ => True));
      [lia|auto|auto|apply adds_ret; exact I]
  end.

Lemma adds_parseNode c :
  adds (List.length (arguments c) + 22) (handlerError c)
    (fun _ : nat => True) (parseNode c).
Proof.
  unfold parseNode, parseFunctionArguments.
  apply (adds_bind (List.length (arguments c)) 22%nat (handlerError c)
           (fun ps : list nat => List.length ps = List.length (arguments c))).
  { apply (adds_weaken (List.length (arguments c)) (List.length (arguments c))
             builderError (handlerError c)
             (fun ps : list nat =>
                List.length ps = List.length (arguments c))
             (fun ps : list nat =>
                List.length ps = List.length (arguments c)));
      [lia|intros e He; now left|auto|apply adds_parseExpressions]. }
  intros ps Hps.
  destruct ((List.length ps <? 2)%nat || (3 <? List.length ps)%nat) eqn:Har.
  { apply (adds_weaken 0%nat 22%nat (handlerError c) (handlerError c)
             (fun _ => True) (fun _ => True));
      [lia|auto|auto|].
    apply adds_throw. right. split; [reflexivity|].
    apply orb_true_iff in Har as [H|H]; apply Nat.ltb_lt in H; lia. }
  apply (adds_weaken 22%nat 22%nat builderError (handlerError c)
           (fun _ => True) (fun _ => True));
    [lia|intros e He; now left|auto|].
  cbv zeta. adds_step.
  apply (adds_bind 3%nat 18%nat builderError (fun _ => True)).
  { destruct (List.length ps =? 3)%nat.
    - adds_last.
    - adds_step. adds_step. adds_step. adds_last. }
  intros step_arg _.
  do 17 adds_step.
  destruct (negb _ && negb _ && negb _).
  - adds_last.
  - do 5 adds_step. adds_last.
Qed.

Lemma adds_parse c :
  adds (List.length (arguments c) + 23) (handlerError c)
    (fun _ : nat => True) (parse c).
Proof.
  unfold parse.
  replace (List.length (arguments c) + 23)%nat
    with ((List.length (arguments c) + 22) + 1)%nat by lia.
  apply (adds_bind (List.length (arguments c) + 22)%nat 1%nat
           (handlerError c) (fun _ => True));
    [apply adds_parseNode|].
  intros node _.
  apply (adds_weaken 1%nat 1%nat builderError (handlerError c)
           (fun _ => True) (fun _ => True));
    [lia|intros e He; now left|auto|apply adds_convertNodeTypeIfNeeded].
Qed.

(* ================================================================== *)
(** * What the handler does to the builder *)

(** X1.  Whether [parse] returns or throws, the builder it leaves is the
    one it was given followed by new nodes: every node pointer valid
    before the call still points to the same node. *)
Theorem parse_only_appends c dag outcome dag' :
  parse c dag = (outcome, dag') ->
  (exists added, dag' = dag ++ added) /\
  (forall p n, nth_error dag p = Some n -> nth_error dag' p = Some n).
Proof.
  intros H. destruct (adds_parse c dag outcome dag' H) as [Hg _].
  apply grows_extends in Hg. split; [exact Hg|].
  intros p n Hp. exact (@extends_nth_error dag dag' p n Hg Hp).
Qed.

Lemma parse_only_appends_witness :
  nth_error
    (snd (parse (sequenceCall [Selection 0; int32 4] (Array Int64))
            [mkNode INPUT [] Int32 "a"])) 0
  = Some (mkNode INPUT [] Int32 "a").
Proof.
  refine (proj2 (parse_only_appends
                   (sequenceCall [Selection 0; int32 4] (Array Int64))
                   [mkNode INPUT [] Int32 "a"] _ _ _)
            0%nat (mkNode INPUT [] Int32 "a") eq_refl).
  apply surjective_pairing.
Defined.

(** X2.  Whether [parse] returns or throws, a builder that lists every
    node after its arguments still does so afterwards. *)
Theorem parse_keeps_topological_order c dag outcome dag' :
  wellFormed dag -> parse c dag = (outcome, dag') -> wellFormed dag'.
Proof.
  intros Hwf H. destruct (adds_parse c dag outcome dag' H) as [Hg _].
  destruct Hg as (added & _ & _ & _ & Hw). exact (Hw Hwf).
Qed.

Lemma parse_keeps_topological_order_witness :
  wellFormed
    (snd (parse (sequenceCall [int32 1; nullableInt32 Null; int32 0]
                   (Array Int64)) [])).
Proof.
  apply (parse_keeps_topological_order
           (sequenceCall [int32 1; nullableInt32 Null; int32 0]
              (Array Int64)) []
           (fst (parse (sequenceCall [int32 1; nullableInt32 Null; int32 0]
                          (Array Int64)) []))).
  - exact wellFormed_nil.
  - apply surjective_pairing.
Defined.

Lemma getInputsFrom_app dag added base :
  getInputsFrom (dag ++ added) base
  = getInputsFrom dag base
    ++ getInputsFrom added (base + List.length dag).
Proof.
  revert base. induction dag as [|n dag IH]; intros base; simpl.
  - now rewrite Nat.add_0_r.
  - rewrite IH. replace (S base + List.length dag)%nat
      with (base + S (List.length dag))%nat by lia.
    destruct (type n); reflexivity.
Qed.

Lemma getInputsFrom_none added base :
  Forall (fun n => type n <> INPUT) added -> getInputsFrom added base = [].
Proof.
  intros H. revert base. induction H as [|n added Hn _ IH]; intros base;
    simpl; [reflexivity|].
  destruct (type n); [contradiction|apply IH|apply IH].
Qed.

Lemma execute_app dag added row k :
  (k <= List.length dag)%nat ->
  execute (dag ++ added) row k = execute dag row k.
Proof.
  induction k as [|k IH]; intros Hk; simpl; [reflexivity|].
  rewrite IH by lia.
  rewrite nth_error_app1 by lia.
  rewrite firstn_app.
  replace (k - List.length dag)%nat with 0%nat by lia.
  simpl. rewrite app_nil_r. reflexivity.
Qed.

(** The value of a node does not depend on nodes added after it. *)
Lemma valueOf_app dag added row p :
  (p < List.length dag)%nat ->
  valueOf (dag ++ added) row p = valueOf dag row p.
Proof.
  intros Hp. unfold valueOf, lookupValue.
  rewrite (execute_prefix (dag ++ added) row (List.length dag)
             (List.length (dag ++ added)) p)
    by (rewrite ?length_app; lia).
  now rewrite execute_app by lia.
Qed.

(** X4.  [parse] adds no input column, on any path: the list of input
    nodes is unchanged, and every node that was in the builder evaluates
    on every row to what it evaluated to before the call. *)
Theorem parse_leaves_inputs_and_values c dag outcome dag' :
  parse c dag = (outcome, dag') ->
  getInputs dag' = getInputs dag /\
  (forall row p,
      (p < List.length dag)%nat -> valueOf dag' row p = valueOf dag row p).
Proof.
  intros H. destruct (adds_parse c dag outcome dag' H) as [Hg _].
  destruct Hg as (added & -> & _ & Hin & _). split.
  - unfold getInputs. rewrite getInputsFrom_app.
    rewrite (getInputsFrom_none added _ Hin). apply app_nil_r.
  - intros row p Hp. now apply valueOf_app.
Qed.

Lemma parse_leaves_inputs_and_values_witness :
  getInputs
    (snd (parse (sequenceCall [Selection 0; int32 4] (Array Int64))
            [mkNode INPUT [] Int32 "a"]))
  = getInputs [mkNode INPUT [] Int32 "a"].
Proof.
  refine (proj1 (parse_leaves_inputs_and_values
                   (sequenceCall [Selection 0; int32 4] (Array Int64))
                   [mkNode INPUT [] Int32 "a"] _ _ _)).
  apply surjective_pairing.
Defined.

(* ================================================================== *)
(** * Exceptions of the handler *)

(** X5.  The arity error is the only exception of the handler's own, it
    names [sequence], and a call with two or three arguments never ends
    with it: such a call can only fail inside the builder, on a type
    mismatch or a dangling reference. *)
Theorem parse_arity_error_only_on_wrong_arity c dag e dag' :
  parse c dag = (inl e, dag') ->
  (forall function,
      e = NUMBER_OF_ARGUMENTS_DOESNT_MATCH function ->
      function = "sequence" /\
      List.length (arguments c) <> 2%nat /\
      List.length (arguments c) <> 3%nat) /\
  (List.length (arguments c) = 2%nat \/ List.length (arguments c) = 3%nat ->
   e = TYPE_MISMATCH \/ e = LOGICAL_ERROR).
Proof.
  intros H. destruct (adds_parse c dag (inl e) dag' H) as [_ He].
  simpl in He. split.
  - intros f ->. destruct He as [[He|He]|(He & H2 & H3)]; try discriminate.
    injection He as ->. auto.
  - intros Hlen. destruct He as [He|(_ & H2 & H3)]; [exact He|lia].
Qed.

Lemma parse_arity_error_only_on_wrong_arity_witness :
  TYPE_MISMATCH = TYPE_MISMATCH \/ TYPE_MISMATCH = LOGICAL_ERROR.
Proof.
  refine (proj2 (parse_arity_error_only_on_wrong_arity
                   (sequenceCall [int32 1; int32 10; int32 3] Int32) []
                   TYPE_MISMATCH _ _) _).
  - vm_compute. reflexivity.
  - right. reflexivity.
Defined.

(* ================================================================== *)
(** * The extent of the result *)

Lemma TypeAt_functional dag p t u : TypeAt dag p t -> TypeAt dag p u -> t = u.
Proof. intros (n & Hn & <-) (m & Hm & <-). congruence. Qed.

(** X9.  On a row of integers within their declared types and within the
    element type of the expected result, with the synthesized step or an
    explicit step that is non-zero and points from start to end, and
    with [end - start] and [end + step] within 64 bits, the returned
    node evaluates to a non-empty array whose first element is start,
    whose length is [|end - start| / |step| + 1] and whose elements all
    lie between start and end: the result never overshoots end. *)
Theorem result_starts_at_start_and_stays_in_bounds
    c dag r dag' dag0 pa pb rest row a b step ta tb :
  wellFormed dag -> parse c dag = (inr r, dag') ->
  parseFunctionArguments c dag = (inr (pa :: pb :: rest), dag0) ->
  TypeAt dag' pa ta -> TypeAt dag' pb tb ->
  valueOf dag' row pa = Some (VInt a) ->
  valueOf dag' row pb = Some (VInt b) ->
  inRange ta a -> inRange tb b ->
  inRange (arrayElement (output_type c)) a ->
  inRange (arrayElement (output_type c)) b ->
  inRange Int64 (b - a) -> inRange Int64 (b + step) ->
  match rest with
  | [] => step = (if a <=? b then 1 else -1)
  | [pc] =>
      valueOf dag' row pc = Some (VInt step) /\ pointsTowards a b step /\
      exists tc, TypeAt dag' pc tc /\ inRange tc step
  | _ => False
  end ->
  exists elements,
    valueOf dag' row r = Some (VArray elements) /\
    hd_error elements = Some a /\
    List.length elements = S (Z.to_nat (Z.abs (b - a) / Z.abs step)) /\
    forall x, In x elements -> Z.min a b <= x <= Z.max a b.
Proof.
  intros Hwf H Ea Hta Htb Ha Hb Ra Rb Oa Ob Rd Rs Hstep.
  destruct (parse_inv c dag r dag' Hwf H)
    as (args & d0 & s & t & node & Ea' & Hl & HA & HB & HF & He & Hw & Hr).
  rewrite Ea in Ea'. injection Ea' as <- <-.
  pose proof HB as HB'. open_built HB'.
  assert (start_arg s = pa /\ end_arg s = pb /\
          valueOf dag' row (step_arg s) = Some (VInt step) /\
          pointsTowards a b step /\ inRange (step_type s) step)
    as (Es & Ee & Hc & Hdir & Rc).
  { destruct HA as [[E HD]|E].
    - injection E as -> -> ->. subst step.
      split; [reflexivity|]. split; [reflexivity|].
      split; [exact (default_step_value dag' s row a b Hw HB HD Ha Hb)|].
      split; [apply default_step_points|].
      exact (default_step_inRange dag' s a b HD).
    - injection E as -> -> ->.
      destruct Hstep as (Hc & Hdir & tc & Htc & Rc).
      rewrite <- (TypeAt_functional dag' _ _ _ Htst Htc) in Rc. auto. }
  rewrite <- Es in Ha, Hta. rewrite <- Ee in Hb, Htb.
  rewrite <- (TypeAt_functional dag' _ _ _ Hts Hta) in Ra.
  rewrite <- (TypeAt_functional dag' _ _ _ Hte Htb) in Rb.
  exists (progression a b step).
  split; [exact (returned_value_ints dag' s node t r (output_type c) row
                   a b step Hw HB HF Hr Ha Hb Hc Hdir Ra Rb Rc Oa Ob Rd Rs)|].
  split; [apply progression_head|].
  split; [apply progression_length|].
  intros x. now apply progression_between.
Qed.

Lemma result_starts_at_start_and_stays_in_bounds_witness :
  exists r dag' elements,
    parse (sequenceCall [int32 7; int32 2] (Array Int64)) [] = (inr r, dag') /\
    valueOf dag' [] r = Some (VArray elements) /\
    hd_error elements = Some 7.
Proof.
  destruct (parse (sequenceCall [int32 7; int32 2] (Array Int64)) [])
    as [[e|r] dag'] eqn:E; [vm_compute in E; discriminate E|].
  pose proof E as E'.
  match type of E' with ?l = _ =>
    let v := eval vm_compute in l in change l with v in E' end.
  injection E' as Hr Hd.
  destruct (result_starts_at_start_and_stays_in_bounds
              (sequenceCall [int32 7; int32 2] (Array Int64))
              [] r dag'
              (snd (parseFunctionArguments
                      (sequenceCall [int32 7; int32 2] (Array Int64)) []))
              0%nat 1%nat [] [] 7 2 (-1) Int32 Int32
              wellFormed_nil E)
    as (elements & Hv & Hh & _).
  - vm_compute. reflexivity.
  - rewrite <- Hd. eexists. split; vm_compute; reflexivity.
  - rewrite <- Hd. eexists. split; vm_compute; reflexivity.
  - rewrite <- Hd. vm_compute. reflexivity.
  - rewrite <- Hd. vm_compute. reflexivity.
  - unfold inRange. simpl. lia.
  - unfold inRange. simpl. lia.
  - unfold inRange. simpl. lia.
  - unfold inRange. simpl. lia.
  - unfold inRange. simpl. lia.
  - unfold inRange. simpl. lia.
  - reflexivity.
  - exists r, dag', elements. split; [reflexivity|]. split; assumption.
Defined.

(* ================================================================== *)
(** * The columns of the right sample block *)

Section RightSampleBlockColumns.

Import StorageJoinFromReadBuffer.

(** X10.  [getRightSampleBlock] never adds, drops or reorders a column:
    the returned block has as many columns as the stored sample block,
    and, when the conversion primitive keeps a column's name, the same
    column names in the same order. *)
Theorem getRightSampleBlock_keeps_columns
    (convert : ColumnWithTypeAndName -> ColumnWithTypeAndName) (this : t) :
  (forall col, column_name (convert col) = column_name col) ->
  List.length (fst (getRightSampleBlock convert this))
  = List.length (getSampleBlock (storage_metadata_ this)) /\
  map column_name (fst (getRightSampleBlock convert this))
  = map column_name (getSampleBlock (storage_metadata_ this)).
Proof.
  intros Hname. unfold getRightSampleBlock; simpl.
  destruct (use_nulls this && isLeftOrFull (kind this));
    [|split; reflexivity].
  rewrite convertColumns_all. split; [apply length_map|].
  rewrite map_map. apply map_ext. exact Hname.
Qed.

End RightSampleBlockColumns.

Lemma getRightSampleBlock_keeps_columns_witness :
  map column_name
    (fst (StorageJoinFromReadBuffer.getRightSampleBlock
            (fun col => {| column_type := makeNullable (column_type col);
                           column_name := column_name col |})
            (StorageJoinFromReadBuffer.Build_t
               {| getSampleBlock :=
                    [{| column_type := Int32; column_name := "k" |};
                     {| column_type := Array Int64; column_name := "v" |}] |}
               [] ["k"] true Full Any false)))
  = ["k"; "v"].
Proof.
  refine (proj2 (getRightSampleBlock_keeps_columns
                   (fun col => {| column_type := makeNullable (column_type col);
                                  column_name := column_name col |})
                   (StorageJoinFromReadBuffer.Build_t
                      {| getSampleBlock :=
                           [{| column_type := Int32; column_name := "k" |};
                            {| column_type := Array Int64;
                               column_name := "v" |}] |}
                      [] ["k"] true Full Any false) _)).
  intros col. reflexivity.
Defined.

(* ================================================================== *)
(** * Types of the guarded branch *)

(** X11.  When an argument has a nullable type, the returned
    multi-way conditional takes one and the same node as its three NULL
    results, and that constant and both casts have one and the same type:
    the nullable of the inclusive range's type.  The exclusive range is
    cast to it too, whatever its own type. *)
Theorem guarded_results_share_one_type
    c dag r dag' parsed_args dag0 p tp :
  wellFormed dag -> parse c dag = (inr r, dag') ->
  parseFunctionArguments c dag = (inr parsed_args, dag0) ->
  In p parsed_args -> TypeAt dag' p tp -> isNullable tp = true ->
  exists node guard1 guard2 guard3 condition null_const wrap1 wrap2
         range1 range2 t1 t2 t,
    (r = node \/ FunctionAt dag' r "CAST" [node] (output_type c)) /\
    FunctionAt dag' node "multiIf"
      [guard1; null_const; guard2; null_const; guard3; null_const;
       condition; wrap1; wrap2] t /\
    ConstAt dag' null_const (makeNullable t1) Null /\
    FunctionAt dag' wrap1 "CAST" [range1] (makeNullable t1) /\
    FunctionAt dag' wrap2 "CAST" [range2] (makeNullable t1) /\
    TypeAt dag' range1 t1 /\ TypeAt dag' range2 t2 /\
    isNullable t = true.
Proof.
  intros Hwf H Ea Hin Htp Hn.
  destruct (parse_inv c dag r dag' Hwf H)
    as (args & d0 & s & t & node & Ea' & Hl & HA & HB & HF & He & Hw & Hr).
  rewrite Ea in Ea'. injection Ea' as <- <-.
  pose proof (result_type_nullable dag' s node t HB HF) as Hnull.
  pose proof HB as HB'. open_built HB'.
  assert (noneNullable s = false) as Hpath.
  { unfold noneNullable.
    assert (p = start_arg s \/ p = end_arg s \/ p = step_arg s) as Hp.
    { destruct HA as [[-> _]| ->]; simpl in Hin; intuition. }
    destruct Hp as [->|[->| ->]].
    - rewrite <- (TypeAt_fun Htp Hts), Hn. reflexivity.
    - rewrite <- (TypeAt_fun Htp Hte), Hn.
      destruct (isNullable (start_type s)), (isNullable (step_type s));
        reflexivity.
    - rewrite <- (TypeAt_fun Htp Htst), Hn.
      destruct (isNullable (start_type s)), (isNullable (end_type s));
        reflexivity. }
  rewrite Hpath in Hnull. simpl in Hnull.
  unfold Final in HF. rewrite Hpath in HF.
  destruct HF as (w1 & w2 & nc & Hw1 & Hw2 & Hnc & Hret & _).
  exists node, (start_is_null_node s), (end_is_null_node s),
    (step_is_null_node s), (modulo_step_eq_zero_node s), nc, w1, w2,
    (range_1_node s), (range_2_node s), (range_1_type s), (range_2_type s), t.
  repeat (split; [eassumption|]).
  split; [eapply FunctionAt_TypeAt; eassumption|].
  split; [eapply FunctionAt_TypeAt; eassumption|exact Hnull].
Qed.

Lemma guarded_results_share_one_type_witness :
  exists r dag' node null_const wrap1 wrap2 range1 range2 t,
    parse (sequenceCall [nullableInt32 (FInt 1); int32 9; int32 2]
             (Nullable (Array Int64))) [] = (inr r, dag') /\
    FunctionAt dag' wrap1 "CAST" [range1] (makeNullable t) /\
    FunctionAt dag' wrap2 "CAST" [range2] (makeNullable t) /\
    ConstAt dag' null_const (makeNullable t) Null /\
    (r = node \/ FunctionAt dag' r "CAST" [node] (Nullable (Array Int64))).
Proof.
  destruct (parse (sequenceCall [nullableInt32 (FInt 1); int32 9; int32 2]
                     (Nullable (Array Int64))) [])
    as [[e|r] dag'] eqn:E; [vm_compute in E; discriminate E|].
  pose proof E as E'.
  match type of E' with ?l = _ =>
    let v := eval vm_compute in l in change l with v in E' end.
  injection E' as Hr Hd.
  destruct (guarded_results_share_one_type
              (sequenceCall [nullableInt32 (FInt 1); int32 9; int32 2]
                 (Nullable (Array Int64)))
              [] r dag' [0; 1; 2]%nat
              (snd (parseFunctionArguments
                      (sequenceCall [nullableInt32 (FInt 1); int32 9; int32 2]
                         (Nullable (Array Int64))) []))
              0%nat (Nullable Int32) wellFormed_nil E)
    as (node & g1 & g2 & g3 & cond & nc & w1 & w2 & r1 & r2 & t1 & t2 & t
        & Hret & _ & Hnc & Hw1 & Hw2 & _).
  - vm_compute. reflexivity.
  - left. reflexivity.
  - rewrite <- Hd. eexists. split; [vm_compute; reflexivity|reflexivity].
  - reflexivity.
  - exists r, dag', node, nc, w1, w2, r1, r2, t1.
    split; [reflexivity|]. repeat (split; [assumption|]). exact Hret.
Defined.
